(** * utf8.h: the checked UTF-8 encoder, decoder, sanitizer and UTF-16 converters

    A shallow embedding of [src/utf8.h] (namespaces [utf8::internal] and
    [utf8]) and the properties of its checked interface.

    Data model.
    - An octet range is a storage [mem : list Z] together with two positions
      [it end_ : nat] (the iterators).  [*it] is [deref mem it]; [++it] is
      [S it]; [it == end] is [it =? end_].  Elements are arbitrary integers
      (the iterator's value type is a template parameter): the code masks
      them with [mask8] where it needs an octet, and so does the model.
    - [uint8_t], [uint16_t] and [uint32_t] values are integers of [Z] with the
      wrap-around of each conversion and of each 32-bit operation written out
      ([u8], [u16], [u32]).
    - A reference parameter ([it], [code_point]) is passed in and returned.
    - An output iterator is the list of everything written through it so
      far; [*(result++) = x] appends [x].
    - A [throw] is the constructor [Throw], which also carries the state of
      the reference and output arguments at the moment of the throw.
    - A [while] loop whose trip count is not bounded by the structure of its
      data takes a [fuel] and yields [None] when the fuel runs out. *)

From Stdlib Require Import ZArith List Bool Lia Arith.
Import ListNotations.
Local Open Scope Z_scope.

(** ** Fixed-width integers *)

Definition u8 (x : Z) : Z := x mod 2 ^ 8.
Definition u16 (x : Z) : Z := x mod 2 ^ 16.
Definition u32 (x : Z) : Z := x mod 2 ^ 32.

(** [*it]: the element stored at position [it]. *)
Definition deref (mem : list Z) (it : nat) : Z := nth it mem 0.

Module internal.

(** *** Unicode constants *)

Definition LEAD_SURROGATE_MIN : Z := 0xd800.
Definition LEAD_SURROGATE_MAX : Z := 0xdbff.
Definition TRAIL_SURROGATE_MIN : Z := 0xdc00.
Definition TRAIL_SURROGATE_MAX : Z := 0xdfff.
Definition LEAD_OFFSET : Z := u16 (LEAD_SURROGATE_MIN - Z.shiftr 0x10000 10).
Definition SURROGATE_OFFSET : Z :=
  u32 (u32 (0x10000 - Z.shiftl LEAD_SURROGATE_MIN 10) - TRAIL_SURROGATE_MIN).

Definition CODE_POINT_MAX : Z := 0x0010ffff.

(** *** Classifier *)

Definition mask8 (oc : Z) : Z := u8 (Z.land 0xff oc).
Definition mask16 (oc : Z) : Z := u16 (Z.land 0xffff oc).

Definition is_trail (oc : Z) : bool := Z.shiftr (mask8 oc) 6 =? 0x2.

Definition is_lead_surrogate (cp : Z) : bool :=
  (LEAD_SURROGATE_MIN <=? cp) && (cp <=? LEAD_SURROGATE_MAX).

Definition is_trail_surrogate (cp : Z) : bool :=
  (TRAIL_SURROGATE_MIN <=? cp) && (cp <=? TRAIL_SURROGATE_MAX).

Definition is_surrogate (cp : Z) : bool :=
  (LEAD_SURROGATE_MIN <=? cp) && (cp <=? TRAIL_SURROGATE_MAX).

Definition is_code_point_valid (cp : Z) : bool :=
  (cp <=? CODE_POINT_MAX) && negb (is_surrogate cp).

Definition sequence_length (mem : list Z) (lead_it : nat) : Z :=
  let lead := mask8 (deref mem lead_it) in
  if lead <? 0x80 then 1
  else if Z.shiftr lead 5 =? 0x6 then 2
  else if Z.shiftr lead 4 =? 0xe then 3
  else if Z.shiftr lead 3 =? 0x1e then 4
  else 0.

Definition is_overlong_sequence (cp : Z) (length : Z) : bool :=
  if cp <? 0x80 then negb (length =? 1)
  else if cp <? 0x800 then negb (length =? 2)
  else if cp <? 0x10000 then negb (length =? 3)
  else false.

Inductive utf_error : Set :=
| UTF8_OK
| NOT_ENOUGH_ROOM
| INVALID_LEAD
| INCOMPLETE_SEQUENCE
| OVERLONG_SEQUENCE
| INVALID_CODE_POINT.

Definition utf_error_eqb (a b : utf_error) : bool :=
  match a, b with
  | UTF8_OK, UTF8_OK
  | NOT_ENOUGH_ROOM, NOT_ENOUGH_ROOM
  | INVALID_LEAD, INVALID_LEAD
  | INCOMPLETE_SEQUENCE, INCOMPLETE_SEQUENCE
  | OVERLONG_SEQUENCE, OVERLONG_SEQUENCE
  | INVALID_CODE_POINT, INVALID_CODE_POINT => true
  | _, _ => false
  end.

(** *** The checked decoder *)

(** [increase_safely(it, end)]: returns the error code and the new [it]. *)
Definition increase_safely (mem : list Z) (it end_ : nat) : utf_error * nat :=
  let it := S it in
  if (it =? end_)%nat then (NOT_ENOUGH_ROOM, it)
  else if negb (is_trail (deref mem it)) then (INCOMPLETE_SEQUENCE, it)
  else (UTF8_OK, it).

(** [get_sequence_x(it, end, code_point)]: the error code, the new [it] and
    the new [code_point].  On an error both are left as they were at the
    [return]: [it] advanced to the offending position, [code_point] holding
    what had been assembled. *)
Definition get_sequence_1 (mem : list Z) (it end_ : nat) (code_point : Z)
  : utf_error * nat * Z :=
  if (it =? end_)%nat then (NOT_ENOUGH_ROOM, it, code_point)
  else
    let code_point := mask8 (deref mem it) in
    (UTF8_OK, it, code_point).

Definition get_sequence_2 (mem : list Z) (it end_ : nat) (code_point : Z)
  : utf_error * nat * Z :=
  if (it =? end_)%nat then (NOT_ENOUGH_ROOM, it, code_point)
  else
    let code_point := mask8 (deref mem it) in
    match increase_safely mem it end_ with
    | (UTF8_OK, it) =>
        let code_point :=
          u32 (Z.land (u32 (Z.shiftl code_point 6)) 0x7ff
               + Z.land (deref mem it) 0x3f) in
        (UTF8_OK, it, code_point)
    | (ret, it) => (ret, it, code_point)
    end.

Definition get_sequence_3 (mem : list Z) (it end_ : nat) (code_point : Z)
  : utf_error * nat * Z :=
  if (it =? end_)%nat then (NOT_ENOUGH_ROOM, it, code_point)
  else
    let code_point := mask8 (deref mem it) in
    match increase_safely mem it end_ with
    | (UTF8_OK, it) =>
        let code_point :=
          u32 (Z.land (u32 (Z.shiftl code_point 12)) 0xffff
               + Z.land (Z.shiftl (mask8 (deref mem it)) 6) 0xfff) in
        match increase_safely mem it end_ with
        | (UTF8_OK, it) =>
            let code_point := u32 (code_point + Z.land (deref mem it) 0x3f) in
            (UTF8_OK, it, code_point)
        | (ret, it) => (ret, it, code_point)
        end
    | (ret, it) => (ret, it, code_point)
    end.

Definition get_sequence_4 (mem : list Z) (it end_ : nat) (code_point : Z)
  : utf_error * nat * Z :=
  if (it =? end_)%nat then (NOT_ENOUGH_ROOM, it, code_point)
  else
    let code_point := mask8 (deref mem it) in
    match increase_safely mem it end_ with
    | (UTF8_OK, it) =>
        let code_point :=
          u32 (Z.land (u32 (Z.shiftl code_point 18)) 0x1fffff
               + Z.land (Z.shiftl (mask8 (deref mem it)) 12) 0x3ffff) in
        match increase_safely mem it end_ with
        | (UTF8_OK, it) =>
            let code_point :=
              u32 (code_point
                   + Z.land (Z.shiftl (mask8 (deref mem it)) 6) 0xfff) in
            match increase_safely mem it end_ with
            | (UTF8_OK, it) =>
                let code_point :=
                  u32 (code_point + Z.land (deref mem it) 0x3f) in
                (UTF8_OK, it, code_point)
            | (ret, it) => (ret, it, code_point)
            end
        | (ret, it) => (ret, it, code_point)
        end
    | (ret, it) => (ret, it, code_point)
    end.

(** [validate_next(it, end, code_point)]: the error code, the new [it] and
    the new [code_point].  [case 0] returns at once; the other cases fall to
    the checks below the [switch]. *)
Definition validate_next (mem : list Z) (it end_ : nat) (code_point : Z)
  : utf_error * nat * Z :=
  let original_it := it in
  let cp := 0 in
  let length := sequence_length mem it in
  match length with
  | 0 => (INVALID_LEAD, it, code_point)
  | _ =>
      let '(err, it, cp) :=
        match length with
        | 1 => get_sequence_1 mem it end_ cp
        | 2 => get_sequence_2 mem it end_ cp
        | 3 => get_sequence_3 mem it end_ cp
        | 4 => get_sequence_4 mem it end_ cp
        | _ => (UTF8_OK, it, cp)
        end in
      match err with
      | UTF8_OK =>
          if is_code_point_valid cp then
            if negb (is_overlong_sequence cp length) then
              (UTF8_OK, S it, cp)
            else (OVERLONG_SEQUENCE, original_it, code_point)
          else (INVALID_CODE_POINT, original_it, code_point)
      | _ => (err, original_it, code_point)
      end
  end.

(** The two-argument overload: [code_point] is a local [ignored], whose
    initial value is indeterminate and never read; the model starts it at 0. *)
Definition validate_next_2 (mem : list Z) (it end_ : nat) : utf_error * nat :=
  let ignored := 0 in
  let '(err, it, _) := validate_next mem it end_ ignored in
  (err, it).

End internal.

(** ** The library API *)

Import internal.

(** [find_invalid(start, end)]: the position of the first octet sequence that
    does not decode, or [end_]. *)
Fixpoint find_invalid (fuel : nat) (mem : list Z) (start end_ : nat)
  : option nat :=
  let result := start in
  if (result =? end_)%nat then Some result
  else
    match fuel with
    | O => None
    | S fuel =>
        let '(err_code, result) := validate_next_2 mem result end_ in
        if negb (utf_error_eqb err_code UTF8_OK) then Some result
        else find_invalid fuel mem result end_
    end.

Definition is_valid (fuel : nat) (mem : list Z) (start end_ : nat)
  : option bool :=
  option_map (fun r => (r =? end_)%nat) (find_invalid fuel mem start end_).

(** *** Exceptions *)

Inductive exception : Set :=
| invalid_code_point (cp : Z)
| invalid_utf8 (u : Z)
| invalid_utf16 (u : Z)
| not_enough_room.

(** The outcome of a call that may throw: [A] is the returned value, [S] the
    state of its reference or output argument, at the return or at the
    throw. *)
Inductive outcome (A S : Type) : Type :=
| Ok (a : A) (s : S)
| Throw (e : exception) (s : S).
Arguments Ok {A S} a s.
Arguments Throw {A S} e s.

(** *** The checked encoder *)

Definition append (cp : Z) (result : list Z) : outcome unit (list Z) :=
  if negb (is_code_point_valid cp) then Throw (invalid_code_point cp) result
  else if cp <? 0x80 then
    Ok tt (result ++ [u8 cp])
  else if cp <? 0x800 then
    Ok tt (result ++ [u8 (Z.lor (Z.shiftr cp 6) 0xc0);
                      u8 (Z.lor (Z.land cp 0x3f) 0x80)])
  else if cp <? 0x10000 then
    Ok tt (result ++ [u8 (Z.lor (Z.shiftr cp 12) 0xe0);
                      u8 (Z.lor (Z.land (Z.shiftr cp 6) 0x3f) 0x80);
                      u8 (Z.lor (Z.land cp 0x3f) 0x80)])
  else
    Ok tt (result ++ [u8 (Z.lor (Z.shiftr cp 18) 0xf0);
                      u8 (Z.lor (Z.land (Z.shiftr cp 12) 0x3f) 0x80);
                      u8 (Z.lor (Z.land (Z.shiftr cp 6) 0x3f) 0x80);
                      u8 (Z.lor (Z.land cp 0x3f) 0x80)]).

(** *** The sanitizer *)

(** [for (it = sequence_start; it != start; ++it) *out++ = *it;] with
    [n = start - sequence_start] iterations left. *)
Fixpoint copy_octets (n : nat) (mem : list Z) (it : nat) (out : list Z)
  : list Z :=
  match n with
  | O => out
  | S n => copy_octets n mem (S it) (out ++ [deref mem it])
  end.

(** The loop that skips the continuation octets after a replaced lead
    ([while (start != end && is_trail( *start )) ++start;]) with at most [n]
    iterations left; [replace_invalid] passes [end_ - start], which the loop
    cannot exceed (see [skip_trail_stops]). *)
Fixpoint skip_trail (n : nat) (mem : list Z) (start end_ : nat) : nat :=
  match n with
  | O => start
  | S n =>
      if negb (start =? end_)%nat && is_trail (deref mem start)
      then skip_trail n mem (S start) end_
      else start
  end.

Fixpoint replace_invalid (fuel : nat) (mem : list Z) (start end_ : nat)
  (out : list Z) (replacement : Z) : option (outcome unit (list Z)) :=
  if (start =? end_)%nat then Some (Ok tt out)
  else
    match fuel with
    | O => None
    | S fuel =>
        let sequence_start := start in
        let '(err_code, start) := validate_next_2 mem start end_ in
        match err_code with
        | UTF8_OK =>
            let out :=
              copy_octets (start - sequence_start) mem sequence_start out in
            replace_invalid fuel mem start end_ out replacement
        | NOT_ENOUGH_ROOM => Some (Throw not_enough_room out)
        | INVALID_LEAD =>
            match append replacement out with
            | Ok _ out =>
                let start := S start in
                replace_invalid fuel mem start end_ out replacement
            | Throw e out => Some (Throw e out)
            end
        | INCOMPLETE_SEQUENCE | OVERLONG_SEQUENCE | INVALID_CODE_POINT =>
            match append replacement out with
            | Ok _ out =>
                let start := S start in
                let start := skip_trail (end_ - start) mem start end_ in
                replace_invalid fuel mem start end_ out replacement
            | Throw e out => Some (Throw e out)
            end
        end
    end.

(** The three-argument overload. *)
Definition replacement_marker : Z := u32 (mask16 0xfffd).

Definition replace_invalid_3 (fuel : nat) (mem : list Z) (start end_ : nat)
  (out : list Z) : option (outcome unit (list Z)) :=
  replace_invalid fuel mem start end_ out replacement_marker.

(** *** Checked decoding *)

(** [next(it, end)]: the decoded code point, or the exception; with it the
    position [it] is left at. *)
Definition next (mem : list Z) (it end_ : nat) : outcome Z nat :=
  let cp := 0 in
  let '(err_code, it, cp) := validate_next mem it end_ cp in
  match err_code with
  | UTF8_OK => Ok cp it
  | NOT_ENOUGH_ROOM => Throw not_enough_room it
  | INVALID_LEAD | INCOMPLETE_SEQUENCE | OVERLONG_SEQUENCE =>
      Throw (invalid_utf8 (u8 (deref mem it))) it
  | INVALID_CODE_POINT => Throw (invalid_code_point cp) it
  end.

(** *** UTF-16 converters *)

Fixpoint utf16to8 (fuel : nat) (mem : list Z) (start end_ : nat)
  (result : list Z) : option (outcome unit (list Z)) :=
  if (start =? end_)%nat then Some (Ok tt result)
  else
    match fuel with
    | O => None
    | S fuel =>
        let cp := u32 (mask16 (deref mem start)) in
        let start := S start in
        (* the surrogate handling: the code point and the new [start], or the
           exception *)
        let pair : outcome Z nat :=
          if is_lead_surrogate cp then
            if negb (start =? end_)%nat then
              let trail_surrogate := u32 (mask16 (deref mem start)) in
              let start := S start in
              if is_trail_surrogate trail_surrogate then
                Ok (u32 (u32 (u32 (Z.shiftl cp 10) + trail_surrogate)
                         + SURROGATE_OFFSET)) start
              else Throw (invalid_utf16 (u16 trail_surrogate)) start
            else Throw (invalid_utf16 (u16 cp)) start
          else if is_trail_surrogate cp then
            Throw (invalid_utf16 (u16 cp)) start
          else Ok cp start in
        match pair with
        | Throw e _ => Some (Throw e result)
        | Ok cp start =>
            match append cp result with
            | Ok _ result => utf16to8 fuel mem start end_ result
            | Throw e result => Some (Throw e result)
            end
        end
    end.

Fixpoint utf8to16 (fuel : nat) (mem : list Z) (start end_ : nat)
  (result : list Z) : option (outcome unit (list Z)) :=
  if (start =? end_)%nat then Some (Ok tt result)
  else
    match fuel with
    | O => None
    | S fuel =>
        match next mem start end_ with
        | Throw e _ => Some (Throw e result)
        | Ok cp start =>
            if 0xffff <? cp then
              utf8to16 fuel mem start end_
                (result ++ [u16 (u32 (Z.shiftr cp 10 + LEAD_OFFSET));
                            u16 (u32 (Z.land cp 0x3ff + TRAIL_SURROGATE_MIN))])
            else
              utf8to16 fuel mem start end_ (result ++ [u16 cp])
        end
    end.

(** *** Byte order mark *)

Definition bom : list Z := [0xef; 0xbb; 0xbf].

(** [starts_with_bom(it, end)]: each [it++] has taken place when the next
    conjunct is evaluated. *)
Definition starts_with_bom (mem : list Z) (it end_ : nat) : bool :=
  (negb (it =? end_)%nat && (mask8 (deref mem it) =? nth 0 bom 0))
  && (negb (S it =? end_)%nat && (mask8 (deref mem (S it)) =? nth 1 bom 0))
  && (negb (S (S it) =? end_)%nat
      && (mask8 (deref mem (S (S it))) =? nth 2 bom 0)).

(** [is_bom(it)], deprecated: no end bound. *)
Definition is_bom (mem : list Z) (it : nat) : bool :=
  (mask8 (deref mem it) =? nth 0 bom 0)
  && (mask8 (deref mem (S it)) =? nth 1 bom 0)
  && (mask8 (deref mem (S (S it))) =? nth 2 bom 0).

(** *** Moving over a range *)

(** [peek_next(it, end)]: [it] is passed by value, so the caller's position
    stays. *)
Definition peek_next (mem : list Z) (it end_ : nat) : outcome Z unit :=
  match next mem it end_ with
  | Ok cp _ => Ok cp tt
  | Throw e _ => Throw e tt
  end.

(** The loop of [prior]: [while (is_trail( *(--it) )) if (it == start) throw
    ...;].  It yields the position of the first octet, going back, that is
    no continuation octet.  [--it] is [Nat.pred]; the loop is entered with
    [start < it] and leaves at [start] at the latest. *)
Fixpoint prior_back (fuel : nat) (mem : list Z) (it start : nat)
  : option (outcome unit nat) :=
  match fuel with
  | O => None
  | S fuel =>
      let it := Nat.pred it in
      if is_trail (deref mem it) then
        if (it =? start)%nat
        then Some (Throw (invalid_utf8 (u8 (deref mem it))) it)
        else prior_back fuel mem it start
      else Some (Ok tt it)
  end.

(** [prior(it, start)]: the code point of the sequence that ends just before
    [it], and the position of its lead octet. *)
Definition prior (fuel : nat) (mem : list Z) (it start : nat)
  : option (outcome Z nat) :=
  if (it =? start)%nat then Some (Throw not_enough_room it)
  else
    let end_ := it in
    match prior_back fuel mem it start with
    | None => None
    | Some (Throw e it) => Some (Throw e it)
    | Some (Ok _ it) =>
        match peek_next mem it end_ with
        | Ok cp _ => Some (Ok cp it)
        | Throw e _ => Some (Throw e it)
        end
    end.

(** [advance(it, n, end)]: [n] calls of [next]. *)
Fixpoint advance_loop (n : nat) (mem : list Z) (it end_ : nat)
  : outcome unit nat :=
  match n with
  | O => Ok tt it
  | S n =>
      match next mem it end_ with
      | Ok _ it => advance_loop n mem it end_
      | Throw e it => Throw e it
      end
  end.

Definition advance (mem : list Z) (it : nat) (n : Z) (end_ : nat)
  : outcome unit nat :=
  advance_loop (Z.to_nat n) mem it end_.

(** [distance(first, last)]: the loop runs while [first < last]; [dist] is
    the count so far. *)
Fixpoint distance_loop (fuel : nat) (mem : list Z) (first last : nat)
  (dist : Z) : option (outcome Z unit) :=
  if (first <? last)%nat then
    match fuel with
    | O => None
    | S fuel =>
        match next mem first last with
        | Ok _ first => distance_loop fuel mem first last (dist + 1)
        | Throw e _ => Some (Throw e tt)
        end
    end
  else Some (Ok dist tt).

Definition distance (fuel : nat) (mem : list Z) (first last : nat)
  : option (outcome Z unit) :=
  distance_loop fuel mem first last 0.

(** *** UTF-32 converters *)

Fixpoint utf32to8 (fuel : nat) (mem : list Z) (start end_ : nat)
  (result : list Z) : option (outcome unit (list Z)) :=
  if (start =? end_)%nat then Some (Ok tt result)
  else
    match fuel with
    | O => None
    | S fuel =>
        match append (u32 (deref mem start)) result with
        | Ok _ result => utf32to8 fuel mem (S start) end_ result
        | Throw e result => Some (Throw e result)
        end
    end.

Fixpoint utf8to32 (fuel : nat) (mem : list Z) (start end_ : nat)
  (result : list Z) : option (outcome unit (list Z)) :=
  if (start =? end_)%nat then Some (Ok tt result)
  else
    match fuel with
    | O => None
    | S fuel =>
        match next mem start end_ with
        | Ok cp start => utf8to32 fuel mem start end_ (result ++ [cp])
        | Throw e _ => Some (Throw e result)
        end
    end.

(** ** The unchecked variants *)

Module unchecked.

Definition append (cp : Z) (result : list Z) : list Z :=
  if cp <? 0x80 then
    result ++ [u8 cp]
  else if cp <? 0x800 then
    result ++ [u8 (Z.lor (Z.shiftr cp 6) 0xc0);
               u8 (Z.lor (Z.land cp 0x3f) 0x80)]
  else if cp <? 0x10000 then
    result ++ [u8 (Z.lor (Z.shiftr cp 12) 0xe0);
               u8 (Z.lor (Z.land (Z.shiftr cp 6) 0x3f) 0x80);
               u8 (Z.lor (Z.land cp 0x3f) 0x80)]
  else
    result ++ [u8 (Z.lor (Z.shiftr cp 18) 0xf0);
               u8 (Z.lor (Z.land (Z.shiftr cp 12) 0x3f) 0x80);
               u8 (Z.lor (Z.land (Z.shiftr cp 6) 0x3f) 0x80);
               u8 (Z.lor (Z.land cp 0x3f) 0x80)].

(** [next(it)]: the code point and the new [it]. *)
Definition next (mem : list Z) (it : nat) : Z * nat :=
  let cp := mask8 (deref mem it) in
  let length := sequence_length mem it in
  let '(cp, it) :=
    match length with
    | 1 => (cp, it)
    | 2 =>
        let it := S it in
        (u32 (Z.land (u32 (Z.shiftl cp 6)) 0x7ff + Z.land (deref mem it) 0x3f),
         it)
    | 3 =>
        let it := S it in
        let cp :=
          u32 (Z.land (u32 (Z.shiftl cp 12)) 0xffff
               + Z.land (Z.shiftl (mask8 (deref mem it)) 6) 0xfff) in
        let it := S it in
        (u32 (cp + Z.land (deref mem it) 0x3f), it)
    | 4 =>
        let it := S it in
        let cp :=
          u32 (Z.land (u32 (Z.shiftl cp 18)) 0x1fffff
               + Z.land (Z.shiftl (mask8 (deref mem it)) 12) 0x3ffff) in
        let it := S it in
        let cp :=
          u32 (cp + Z.land (Z.shiftl (mask8 (deref mem it)) 6) 0xfff) in
        let it := S it in
        (u32 (cp + Z.land (deref mem it) 0x3f), it)
    | _ => (cp, it)
    end in
  (cp, S it).

Fixpoint utf16to8 (fuel : nat) (mem : list Z) (start end_ : nat)
  (result : list Z) : option (list Z) :=
  if (start =? end_)%nat then Some result
  else
    match fuel with
    | O => None
    | S fuel =>
        let cp := u32 (mask16 (deref mem start)) in
        let start := S start in
        if is_lead_surrogate cp then
          let trail_surrogate := u32 (mask16 (deref mem start)) in
          let start := S start in
          let cp :=
            u32 (u32 (u32 (Z.shiftl cp 10) + trail_surrogate)
                 + SURROGATE_OFFSET) in
          utf16to8 fuel mem start end_ (append cp result)
        else utf16to8 fuel mem start end_ (append cp result)
    end.

Fixpoint utf8to16 (fuel : nat) (mem : list Z) (start end_ : nat)
  (result : list Z) : option (list Z) :=
  if (start <? end_)%nat then
    match fuel with
    | O => None
    | S fuel =>
        let '(cp, start) := next mem start in
        if 0xffff <? cp then
          utf8to16 fuel mem start end_
            (result ++ [u16 (u32 (Z.shiftr cp 10 + LEAD_OFFSET));
                        u16 (u32 (Z.land cp 0x3ff + TRAIL_SURROGATE_MIN))])
        else
          utf8to16 fuel mem start end_ (result ++ [u16 cp])
    end
  else Some result.

Fixpoint utf32to8 (fuel : nat) (mem : list Z) (start end_ : nat)
  (result : list Z) : option (list Z) :=
  if (start =? end_)%nat then Some result
  else
    match fuel with
    | O => None
    | S fuel =>
        utf32to8 fuel mem (S start) end_ (append (u32 (deref mem start)) result)
    end.

Fixpoint utf8to32 (fuel : nat) (mem : list Z) (start end_ : nat)
  (result : list Z) : option (list Z) :=
  if (start <? end_)%nat then
    match fuel with
    | O => None
    | S fuel =>
        let '(cp, start) := next mem start in
        utf8to32 fuel mem start end_ (result ++ [cp])
    end
  else Some result.

End unchecked.

(** * Vocabulary of the specification

    Definitions that the statements below use to say what the code computes:
    they are not part of [utf8.h]. *)

(** A property of the integers below [n], checked by running it on each. *)
Definition below (n : nat) (P : Z -> bool) : bool :=
  forallb P (map Z.of_nat (seq 0 n)).

(** The facts about one octet [m], each checked on the 256 octets. *)
Definition octet_facts (m : Z) : bool :=
  (Bool.eqb (is_trail m) ((0x80 <=? m) && (m <? 0xc0)))
  && (Z.land (u32 (Z.shiftl m 6)) 0x7ff =? m mod 32 * 64)
  && (Z.land (u32 (Z.shiftl m 12)) 0xffff =? m mod 16 * 4096)
  && (Z.land (u32 (Z.shiftl m 18)) 0x1fffff =? m mod 8 * 262144)
  && (Z.land (Z.shiftl m 6) 0xfff =? m mod 64 * 64)
  && (Z.land (Z.shiftl m 12) 0x3ffff =? m mod 64 * 4096)
  && ((if m <? 0x80 then 1
       else if Z.shiftr m 5 =? 0x6 then 2
       else if Z.shiftr m 4 =? 0xe then 3
       else if Z.shiftr m 3 =? 0x1e then 4
       else 0)
      =? (if m <? 0x80 then 1
          else if m <? 0xc0 then 0
          else if m <? 0xe0 then 2
          else if m <? 0xf0 then 3
          else if m <? 0xf8 then 4
          else 0)).

(** The code point that the payload bits of a 2-, 3- or 4-octet sequence
    spell: [110xxxxx 10xxxxxx], [1110xxxx 10xxxxxx 10xxxxxx],
    [11110xxx 10xxxxxx 10xxxxxx 10xxxxxx]. *)
Definition payload_2 (b0 b1 : Z) : Z := b0 mod 32 * 64 + b1 mod 64.

Definition payload_3 (b0 b1 b2 : Z) : Z :=
  b0 mod 16 * 4096 + b1 mod 64 * 64 + b2 mod 64.

Definition payload_4 (b0 b1 b2 b3 : Z) : Z :=
  b0 mod 8 * 262144 + b1 mod 64 * 4096 + b2 mod 64 * 64 + b3 mod 64.

(** The octet at a position, as the decoder reads it. *)
Definition octet (mem : list Z) (it : nat) : Z := mask8 (deref mem it).

(** The checks that [validate_next] makes below its [switch], on the result
    [r] of the [get_sequence_x] for the declared length [k]. *)
Definition checked (k : Z) (it : nat) (c0 : Z) (r : utf_error * nat * Z)
  : utf_error * nat * Z :=
  let '(err, it1, cp) := r in
  match err with
  | UTF8_OK =>
      if is_code_point_valid cp then
        if negb (is_overlong_sequence cp k) then (UTF8_OK, S it1, cp)
        else (OVERLONG_SEQUENCE, it, c0)
      else (INVALID_CODE_POINT, it, c0)
  | _ => (err, it, c0)
  end.

(** The minimal length of the encoding of a code point, as the data model
    states it. *)
Definition minimal_length (cp : Z) : Z :=
  if cp <? 0x80 then 1
  else if cp <? 0x800 then 2
  else if cp <? 0x10000 then 3
  else 4.

(** The code point assembled from the payload bits of a sequence of declared
    length [L] at [it]. *)
Definition assembled (L : Z) (mem : list Z) (it : nat) : Z :=
  match L with
  | 1 => octet mem it
  | 2 => payload_2 (octet mem it) (octet mem (1 + it))
  | 3 => payload_3 (octet mem it) (octet mem (1 + it)) (octet mem (2 + it))
  | 4 => payload_4 (octet mem it) (octet mem (1 + it)) (octet mem (2 + it))
           (octet mem (3 + it))
  | _ => 0
  end.

(** The octet patterns of a sequence at [it] are well formed: the lead
    declares a length [L] from 1 to 4, the [L] octets lie before [end_], and
    each octet after the lead is a continuation octet. *)
Definition well_formed_pattern (mem : list Z) (it end_ : nat) : Prop :=
  1 <= sequence_length mem it
  /\ (it + Z.to_nat (sequence_length mem it) <= end_)%nat
  /\ forall k : nat,
      (1 <= k < Z.to_nat (sequence_length mem it))%nat ->
      is_trail (deref mem (k + it)) = true.

(** The octets of the minimal-length form, by arithmetic. *)
Definition encoding (cp : Z) : list Z :=
  if cp <? 0x80 then [cp]
  else if cp <? 0x800 then [0xc0 + cp / 64; 0x80 + cp mod 64]
  else if cp <? 0x10000 then
    [0xe0 + cp / 4096; 0x80 + cp / 64 mod 64; 0x80 + cp mod 64]
  else
    [0xf0 + cp / 262144; 0x80 + cp / 4096 mod 64; 0x80 + cp / 64 mod 64;
     0x80 + cp mod 64].

Definition tag_facts (x : Z) : bool :=
  (Z.lor x 0x80 =? 0x80 + x)
  && implb (x <? 32) (Z.lor x 0xc0 =? 0xc0 + x)
  && implb (x <? 16) (Z.lor x 0xe0 =? 0xe0 + x)
  && implb (x <? 8) (Z.lor x 0xf0 =? 0xf0 + x).

(** The octets stored from position [a] up to [b], as the decoder reads
    them, and the elements as they are stored. *)
Definition octets_of (mem : list Z) (a b : nat) : list Z :=
  map (octet mem) (seq a (b - a)).

Definition range (mem : list Z) (a b : nat) : list Z :=
  map (deref mem) (seq a (b - a)).

(** The units [replace_invalid] sees in its input: a well-formed unit with
    its octets, or a malformed one covering [skipped] octets. *)
Inductive input_unit : Type :=
| WellFormed (octets : list Z)
| Malformed (skipped : nat).

(** The errors after which the continuation octets that follow are skipped. *)
Definition skips_trail (err : utf_error) : bool :=
  match err with
  | INCOMPLETE_SEQUENCE | OVERLONG_SEQUENCE | INVALID_CODE_POINT => true
  | _ => false
  end.

(** [units mem end_ it us]: from [it] to [end_] the input divides into the
    units [us].  A sequence that decodes is a well-formed unit.  An invalid
    lead is a malformed unit of one octet.  A sequence that is incomplete,
    overlong or spells an invalid code point is a malformed unit made of its
    first octet and all the continuation octets that follow it immediately.
    A truncated sequence is no unit. *)
Inductive units (mem : list Z) (end_ : nat) : nat -> list input_unit -> Prop :=
| units_end : units mem end_ end_ []
| units_well_formed (it it' : nat) (cp : Z) (us : list input_unit) :
    it <> end_ ->
    validate_next mem it end_ 0 = (UTF8_OK, it', cp) ->
    units mem end_ it' us ->
    units mem end_ it (WellFormed (range mem it it') :: us)
| units_invalid_lead (it : nat) (us : list input_unit) :
    it <> end_ ->
    fst (validate_next_2 mem it end_) = INVALID_LEAD ->
    units mem end_ (S it) us ->
    units mem end_ it (Malformed 1 :: us)
| units_malformed_run (it q : nat) (us : list input_unit) :
    it <> end_ ->
    skips_trail (fst (validate_next_2 mem it end_)) = true ->
    (S it <= q <= end_)%nat ->
    (forall k : nat, (S it <= k < q)%nat -> is_trail (deref mem k) = true) ->
    q = end_ \/ is_trail (deref mem q) = false ->
    units mem end_ q us ->
    units mem end_ it (Malformed (q - it) :: us).

(** What the sanitizer writes for a unit: the octets of a well-formed unit,
    one encoded replacement for a malformed one. *)
Definition render (replacement : Z) (u : input_unit) : list Z :=
  match u with
  | WellFormed octets => octets
  | Malformed _ => encoding replacement
  end.

(** The 16-bit units that [utf8to16] writes for one code point. *)
Definition utf16_units (cp : Z) : list Z :=
  if 0xffff <? cp then
    [u16 (u32 (Z.shiftr cp 10 + LEAD_OFFSET));
     u16 (u32 (Z.land cp 0x3ff + TRAIL_SURROGATE_MIN))]
  else [u16 cp].

(** The code point that [utf16to8] assembles from a surrogate pair. *)
Definition from_surrogates (lead trail : Z) : Z :=
  u32 (u32 (u32 (Z.shiftl lead 10) + trail) + SURROGATE_OFFSET).

(** A decoded code point: a value of [uint32_t] that passed the validity
    check. *)
Definition decoded (cp : Z) : Prop := 0 <= cp /\ is_code_point_valid cp = true.

(** [lead] and [trail] are the surrogate pair of [cp]: the two units that
    [utf8to16] writes for it, in the lead and trail ranges, from which both
    the expression of [utf16to8] and the formula of the data model give [cp]
    back. *)
Definition surrogate_pair_of (cp lead trail : Z) : Prop :=
  utf16_units cp = [lead; trail]
  /\ is_lead_surrogate lead = true
  /\ is_trail_surrogate trail = true
  /\ from_surrogates lead trail = cp
  /\ Z.shiftl (lead - 0xd800) 10 + (trail - 0xdc00) + 0x10000 = cp.

(** [decodes mem end_ it cps]: from [it] to [end_] the checked decoder reads
    the code points [cps], one sequence after the other. *)
Inductive decodes (mem : list Z) (end_ : nat) : nat -> list Z -> Prop :=
| decodes_end : decodes mem end_ end_ []
| decodes_next (it it' : nat) (cp : Z) (cps : list Z) :
    it <> end_ ->
    validate_next mem it end_ 0 = (UTF8_OK, it', cp) ->
    decodes mem end_ it' cps ->
    decodes mem end_ it (cp :: cps).

(** * Properties *)

(** ** Arithmetic of the bit fields *)

Ltac euclid := Z.to_euclidean_division_equations; lia.

Lemma below_spec (n : nat) (P : Z -> bool) :
  below n P = true -> forall x, 0 <= x < Z.of_nat n -> P x = true.
Proof.
  unfold below. intros H x Hx.
  rewrite forallb_forall in H. apply H.
  apply in_map_iff. exists (Z.to_nat x). split; [lia|].
  apply in_seq. lia.
Qed.

Lemma land_low (x : Z) (n : Z) (m : Z) :
  0 <= n -> m = Z.ones n -> Z.land x m = x mod 2 ^ n.
Proof. intros Hn ->. now apply Z.land_ones. Qed.

Lemma mask8_mod (oc : Z) : mask8 oc = oc mod 256.
Proof.
  unfold mask8, u8. rewrite Z.land_comm.
  rewrite (land_low oc 8 0xff) by (reflexivity || lia).
  change (2 ^ 8) with 256. now rewrite Z.mod_mod.
Qed.

Lemma mask8_range (oc : Z) : 0 <= mask8 oc < 256.
Proof. rewrite mask8_mod. apply Z.mod_pos_bound. lia. Qed.

Lemma mask8_octet (oc : Z) : 0 <= oc < 256 -> mask8 oc = oc.
Proof. intros. rewrite mask8_mod. now apply Z.mod_small. Qed.

Lemma mask8_idem (oc : Z) : mask8 (mask8 oc) = mask8 oc.
Proof. apply mask8_octet, mask8_range. Qed.

Lemma mask16_mod (oc : Z) : mask16 oc = oc mod 65536.
Proof.
  unfold mask16, u16. rewrite Z.land_comm.
  rewrite (land_low oc 16 0xffff) by (reflexivity || lia).
  change (2 ^ 16) with 65536. now rewrite Z.mod_mod.
Qed.

Lemma land_3f (x : Z) : Z.land x 0x3f = mask8 x mod 64.
Proof.
  rewrite (land_low x 6 0x3f) by (reflexivity || lia).
  rewrite mask8_mod. change (2 ^ 6) with 64. euclid.
Qed.

Lemma land_3ff (x : Z) : Z.land x 0x3ff = x mod 1024.
Proof. now rewrite (land_low x 10 0x3ff) by (reflexivity || lia). Qed.

Lemma is_trail_mask8 (oc : Z) : is_trail oc = is_trail (mask8 oc).
Proof. unfold is_trail. now rewrite mask8_idem. Qed.

Lemma octet_facts_hold (m : Z) : 0 <= m < 256 -> octet_facts m = true.
Proof. apply (below_spec 256). vm_compute. reflexivity. Qed.

Section Octet.
Variable m : Z.
Hypothesis octet : 0 <= m < 256.

Let facts := octet_facts_hold m octet.

Lemma is_trail_octet : is_trail m = (0x80 <=? m) && (m <? 0xc0).
Proof.
  pose proof facts as F. unfold octet_facts in F.
  repeat (apply andb_prop in F; destruct F as [F ?]).
  now apply Bool.eqb_prop.
Qed.

Lemma field_lead2 : Z.land (u32 (Z.shiftl m 6)) 0x7ff = m mod 32 * 64.
Proof.
  pose proof facts as F. unfold octet_facts in F.
  repeat (apply andb_prop in F; destruct F as [F ?]).
  now apply Z.eqb_eq.
Qed.

Lemma field_lead3 : Z.land (u32 (Z.shiftl m 12)) 0xffff = m mod 16 * 4096.
Proof.
  pose proof facts as F. unfold octet_facts in F.
  repeat (apply andb_prop in F; destruct F as [F ?]).
  now apply Z.eqb_eq.
Qed.

Lemma field_lead4 : Z.land (u32 (Z.shiftl m 18)) 0x1fffff = m mod 8 * 262144.
Proof.
  pose proof facts as F. unfold octet_facts in F.
  repeat (apply andb_prop in F; destruct F as [F ?]).
  now apply Z.eqb_eq.
Qed.

Lemma field_trail6 : Z.land (Z.shiftl m 6) 0xfff = m mod 64 * 64.
Proof.
  pose proof facts as F. unfold octet_facts in F.
  repeat (apply andb_prop in F; destruct F as [F ?]).
  now apply Z.eqb_eq.
Qed.

Lemma field_trail12 : Z.land (Z.shiftl m 12) 0x3ffff = m mod 64 * 4096.
Proof.
  pose proof facts as F. unfold octet_facts in F.
  repeat (apply andb_prop in F; destruct F as [F ?]).
  now apply Z.eqb_eq.
Qed.

Lemma lead_class :
  (if m <? 0x80 then 1
   else if Z.shiftr m 5 =? 0x6 then 2
   else if Z.shiftr m 4 =? 0xe then 3
   else if Z.shiftr m 3 =? 0x1e then 4
   else 0)
  = (if m <? 0x80 then 1
     else if m <? 0xc0 then 0
     else if m <? 0xe0 then 2
     else if m <? 0xf0 then 3
     else if m <? 0xf8 then 4
     else 0).
Proof.
  pose proof facts as F. unfold octet_facts in F.
  repeat (apply andb_prop in F; destruct F as [F ?]).
  now apply Z.eqb_eq.
Qed.
End Octet.

(** ** The decoder, case by case *)

Lemma octet_range mem it : 0 <= octet mem it < 256.
Proof. apply mask8_range. Qed.

Lemma u32_small (x : Z) : 0 <= x < 2 ^ 32 -> u32 x = x.
Proof. intros. unfold u32. now apply Z.mod_small. Qed.

Lemma get_sequence_1_spec mem it end_ c :
  get_sequence_1 mem it end_ c =
  if (it =? end_)%nat then (NOT_ENOUGH_ROOM, it, c)
  else (UTF8_OK, it, octet mem it).
Proof. reflexivity. Qed.

Lemma get_sequence_2_spec mem it end_ c :
  get_sequence_2 mem it end_ c =
  if (it =? end_)%nat then (NOT_ENOUGH_ROOM, it, c)
  else if (S it =? end_)%nat then (NOT_ENOUGH_ROOM, S it, octet mem it)
  else if is_trail (deref mem (S it))
  then (UTF8_OK, S it, payload_2 (octet mem it) (octet mem (S it)))
  else (INCOMPLETE_SEQUENCE, S it, octet mem it).
Proof.
  unfold get_sequence_2, increase_safely.
  destruct (it =? end_)%nat; [reflexivity|].
  destruct (S it =? end_)%nat; [reflexivity|].
  destruct (is_trail (deref mem (S it))); [|reflexivity].
  cbn [negb]. fold (octet mem it).
  rewrite field_lead2 by apply octet_range.
  rewrite land_3f. fold (octet mem (S it)).
  pose proof (octet_range mem it). pose proof (octet_range mem (S it)).
  rewrite u32_small by euclid. reflexivity.
Qed.

Lemma get_sequence_3_spec mem it end_ c :
  get_sequence_3 mem it end_ c =
  if (it =? end_)%nat then (NOT_ENOUGH_ROOM, it, c)
  else if (S it =? end_)%nat then (NOT_ENOUGH_ROOM, S it, octet mem it)
  else if negb (is_trail (deref mem (S it)))
  then (INCOMPLETE_SEQUENCE, S it, octet mem it)
  else
    let c1 := octet mem it mod 16 * 4096 + octet mem (S it) mod 64 * 64 in
    if (S (S it) =? end_)%nat then (NOT_ENOUGH_ROOM, S (S it), c1)
    else if is_trail (deref mem (S (S it)))
    then (UTF8_OK, S (S it),
          payload_3 (octet mem it) (octet mem (S it)) (octet mem (S (S it))))
    else (INCOMPLETE_SEQUENCE, S (S it), c1).
Proof.
  unfold get_sequence_3, increase_safely.
  destruct (it =? end_)%nat; [reflexivity|].
  destruct (S it =? end_)%nat; [reflexivity|].
  destruct (is_trail (deref mem (S it))); [|reflexivity].
  cbn [negb]. fold (octet mem it). fold (octet mem (S it)).
  rewrite field_lead3, field_trail6 by apply octet_range.
  pose proof (octet_range mem it). pose proof (octet_range mem (S it)).
  pose proof (octet_range mem (S (S it))).
  rewrite u32_small by euclid.
  destruct (S (S it) =? end_)%nat; [reflexivity|].
  destruct (is_trail (deref mem (S (S it)))); [|reflexivity].
  cbn [negb]. rewrite land_3f. fold (octet mem (S (S it))).
  rewrite u32_small by euclid. reflexivity.
Qed.

Lemma get_sequence_4_spec mem it end_ c :
  get_sequence_4 mem it end_ c =
  if (it =? end_)%nat then (NOT_ENOUGH_ROOM, it, c)
  else if (S it =? end_)%nat then (NOT_ENOUGH_ROOM, S it, octet mem it)
  else if negb (is_trail (deref mem (S it)))
  then (INCOMPLETE_SEQUENCE, S it, octet mem it)
  else
    let c1 := octet mem it mod 8 * 262144 + octet mem (S it) mod 64 * 4096 in
    if (S (S it) =? end_)%nat then (NOT_ENOUGH_ROOM, S (S it), c1)
    else if negb (is_trail (deref mem (S (S it))))
    then (INCOMPLETE_SEQUENCE, S (S it), c1)
    else
      let c2 := c1 + octet mem (S (S it)) mod 64 * 64 in
      if (S (S (S it)) =? end_)%nat then (NOT_ENOUGH_ROOM, S (S (S it)), c2)
      else if is_trail (deref mem (S (S (S it))))
      then (UTF8_OK, S (S (S it)),
            payload_4 (octet mem it) (octet mem (S it)) (octet mem (S (S it)))
              (octet mem (S (S (S it)))))
      else (INCOMPLETE_SEQUENCE, S (S (S it)), c2).
Proof.
  unfold get_sequence_4, increase_safely.
  destruct (it =? end_)%nat; [reflexivity|].
  destruct (S it =? end_)%nat; [reflexivity|].
  destruct (is_trail (deref mem (S it))); [|reflexivity].
  cbn [negb]. fold (octet mem it). fold (octet mem (S it)).
  rewrite field_lead4, field_trail12 by apply octet_range.
  pose proof (octet_range mem it). pose proof (octet_range mem (S it)).
  pose proof (octet_range mem (S (S it))).
  pose proof (octet_range mem (S (S (S it)))).
  rewrite u32_small by euclid.
  destruct (S (S it) =? end_)%nat; [reflexivity|].
  destruct (is_trail (deref mem (S (S it)))); [|reflexivity].
  cbn [negb]. fold (octet mem (S (S it))).
  rewrite field_trail6 by apply octet_range.
  rewrite u32_small by euclid.
  destruct (S (S (S it)) =? end_)%nat; [reflexivity|].
  destruct (is_trail (deref mem (S (S (S it))))); [|reflexivity].
  cbn [negb]. rewrite land_3f. fold (octet mem (S (S (S it)))).
  rewrite u32_small by euclid. reflexivity.
Qed.

Lemma sequence_length_class mem it :
  sequence_length mem it =
  let m := octet mem it in
  if m <? 0x80 then 1
  else if m <? 0xc0 then 0
  else if m <? 0xe0 then 2
  else if m <? 0xf0 then 3
  else if m <? 0xf8 then 4
  else 0.
Proof.
  unfold sequence_length. fold (octet mem it).
  apply lead_class, octet_range.
Qed.

Lemma sequence_length_cases mem it :
  sequence_length mem it = 0 \/ sequence_length mem it = 1
  \/ sequence_length mem it = 2 \/ sequence_length mem it = 3
  \/ sequence_length mem it = 4.
Proof.
  rewrite sequence_length_class. cbv zeta.
  repeat match goal with |- context [if ?b then _ else _] => destruct b end;
    tauto.
Qed.

Lemma validate_next_by_length mem it end_ c0 :
  validate_next mem it end_ c0 =
  match sequence_length mem it with
  | 0 => (INVALID_LEAD, it, c0)
  | 1 => checked 1 it c0 (get_sequence_1 mem it end_ 0)
  | 2 => checked 2 it c0 (get_sequence_2 mem it end_ 0)
  | 3 => checked 3 it c0 (get_sequence_3 mem it end_ 0)
  | 4 => checked 4 it c0 (get_sequence_4 mem it end_ 0)
  | _ => (INVALID_LEAD, it, c0)
  end.
Proof.
  unfold validate_next.
  destruct (sequence_length_cases mem it) as [E|[E|[E|[E|E]]]];
    rewrite E; reflexivity.
Qed.

Ltac by_length mem it :=
  rewrite validate_next_by_length;
  destruct (sequence_length_cases mem it) as [?E|[?E|[?E|[?E|?E]]]];
  rewrite E; cbv beta iota;
  rewrite ?get_sequence_1_spec, ?get_sequence_2_spec, ?get_sequence_3_spec,
    ?get_sequence_4_spec; cbv zeta; unfold checked.

Ltac split_ifs :=
  repeat first
    [ progress cbn [utf_error_eqb]
    | match goal with
      | |- context [if ?b then _ else _] => destruct b eqn:?
      end ].

Lemma validate_next_moves (mem : list Z) (it end_ : nat) (c0 : Z) :
  let '(err, it', _) := validate_next mem it end_ c0 in
  if utf_error_eqb err UTF8_OK
  then it' = (it + Z.to_nat (sequence_length mem it))%nat /\ (it < it')%nat
  else it' = it.
Proof. by_length mem it; split_ifs; cbn; try reflexivity; split; lia. Qed.

(** C3. Whenever the checked decode fails, with any error kind, the position
    after the call is the position before it; on success, and only then, it
    has advanced, past the octets of the sequence (as many as the lead octet
    declares).  The same holds for [next], which passes its position on. *)
Theorem validate_next_restores_position (mem : list Z) (it end_ : nat) (c0 : Z) :
  (let '(err, it', _) := validate_next mem it end_ c0 in
   if utf_error_eqb err UTF8_OK
   then it' = (it + Z.to_nat (sequence_length mem it))%nat /\ (it < it')%nat
   else it' = it)
  /\ match next mem it end_ with
     | Ok _ it' =>
         it' = (it + Z.to_nat (sequence_length mem it))%nat /\ (it < it')%nat
     | Throw _ it' => it' = it
     end.
Proof.
  split; [apply validate_next_moves|].
  unfold next.
  pose proof (validate_next_moves mem it end_ 0) as V0.
  destruct (validate_next mem it end_ 0) as [[err it'] cp].
  destruct err; cbn in V0; exact V0.
Qed.

(** C10. [validate_next] assigns [code_point] only on the path that returns
    [UTF8_OK] (where the value is a valid code point); on every failure the
    caller's value [c0] is still there.  [next] initializes its local to 0, so
    the [invalid_code_point] it throws on [INVALID_CODE_POINT] carries 0: for
    the octets ED A0 80 the rejected value is 0xD800, and the exception
    holds 0. *)
Theorem validate_next_writes_code_point_on_success_only
  (mem : list Z) (it end_ : nat) (c0 : Z) :
  (let '(err, _, cp) := validate_next mem it end_ c0 in
   match err with
   | UTF8_OK => is_code_point_valid cp = true
   | INVALID_CODE_POINT =>
       cp = c0 /\ next mem it end_ = Throw (invalid_code_point 0) it
   | _ => cp = c0
   end)
  /\ get_sequence_3 [0xed; 0xa0; 0x80] 0 3 0 = (UTF8_OK, 2%nat, 0xd800)
  /\ next [0xed; 0xa0; 0x80] 0 3 = Throw (invalid_code_point 0) 0%nat.
Proof.
  split; [|split; vm_compute; reflexivity].
  unfold next.
  rewrite (validate_next_by_length mem it end_ 0).
  by_length mem it; split_ifs; cbn; auto.
Qed.

Lemma eqb_false_lt (a b : nat) : (a < b)%nat -> (a =? b)%nat = false.
Proof. intros. apply Nat.eqb_neq. lia. Qed.

Lemma payload_bounds mem it :
  let L := sequence_length mem it in
  (L = 1 -> 0 <= octet mem it < 0x80)
  /\ (L = 2 -> 0xc0 <= octet mem it < 0xe0)
  /\ (L = 3 -> 0xe0 <= octet mem it < 0xf0)
  /\ (L = 4 -> 0xf0 <= octet mem it < 0xf8).
Proof.
  cbv zeta. rewrite sequence_length_class. cbv zeta.
  pose proof (octet_range mem it).
  repeat match goal with |- context [if ?b <? ?c then _ else _] =>
    destruct (Z.ltb_spec b c) end; repeat split; intros; try discriminate; lia.
Qed.

(** What [validate_next] returns on a well-formed pattern: the code-point
    validity check comes first, the overlong check second. *)
Lemma validate_next_well_formed mem it end_ c0 :
  well_formed_pattern mem it end_ ->
  let L := sequence_length mem it in
  let cp := assembled L mem it in
  validate_next mem it end_ c0 =
  if negb (is_code_point_valid cp) then (INVALID_CODE_POINT, it, c0)
  else if minimal_length cp <? L then (OVERLONG_SEQUENCE, it, c0)
  else (UTF8_OK, (it + Z.to_nat L)%nat, cp).
Proof.
  intros (HL & Hroom & Htrail). cbv zeta.
  pose proof (payload_bounds mem it) as HB. cbv zeta in HB.
  destruct HB as (B1 & B2 & B3 & B4).
  pose proof (octet_range mem (1 + it)) as R1.
  pose proof (octet_range mem (2 + it)) as R2.
  pose proof (octet_range mem (3 + it)) as R3.
  rewrite validate_next_by_length.
  destruct (sequence_length_cases mem it) as [E|[E|[E|[E|E]]]];
    rewrite E in *; try lia; cbv beta iota;
    rewrite ?get_sequence_1_spec, ?get_sequence_2_spec, ?get_sequence_3_spec,
      ?get_sequence_4_spec; cbv zeta; unfold checked;
    change (Z.to_nat 1) with 1%nat in *; change (Z.to_nat 2) with 2%nat in *;
    change (Z.to_nat 3) with 3%nat in *; change (Z.to_nat 4) with 4%nat in *;
    rewrite ?(eqb_false_lt it end_), ?(eqb_false_lt (S it) end_),
      ?(eqb_false_lt (S (S it)) end_), ?(eqb_false_lt (S (S (S it))) end_)
      by lia;
    try (assert (T1 : is_trail (deref mem (S it)) = true)
           by (apply (Htrail 1%nat); lia); rewrite T1);
    try (assert (T2 : is_trail (deref mem (S (S it))) = true)
           by (apply (Htrail 2%nat); lia); rewrite T2);
    try (assert (T3 : is_trail (deref mem (S (S (S it)))) = true)
           by (apply (Htrail 3%nat); lia); rewrite T3);
    cbn [negb Nat.add assembled];
    specialize (B1 eq_refl) || specialize (B2 eq_refl)
    || specialize (B3 eq_refl) || specialize (B4 eq_refl).
  - destruct (is_code_point_valid (octet mem it)); cbn [negb]; [|reflexivity].
    unfold is_overlong_sequence, minimal_length.
    destruct (Z.ltb_spec (octet mem it) 0x80); [|lia].
    cbn. f_equal. f_equal. lia.
  - set (cp := payload_2 _ _).
    assert (0 <= cp < 0x800) by (unfold cp, payload_2; euclid).
    destruct (is_code_point_valid cp); cbn [negb]; [|reflexivity].
    unfold is_overlong_sequence, minimal_length.
    destruct (Z.ltb_spec cp 0x80); cbn; [reflexivity|].
    destruct (Z.ltb_spec cp 0x800); [|lia].
    cbn. f_equal. f_equal. lia.
  - set (cp := payload_3 _ _ _).
    assert (0 <= cp < 0x10000) by (unfold cp, payload_3; euclid).
    destruct (is_code_point_valid cp); cbn [negb]; [|reflexivity].
    unfold is_overlong_sequence, minimal_length.
    destruct (Z.ltb_spec cp 0x80); cbn; [reflexivity|].
    destruct (Z.ltb_spec cp 0x800); cbn; [reflexivity|].
    destruct (Z.ltb_spec cp 0x10000); [|lia].
    cbn. f_equal. f_equal. lia.
  - set (cp := payload_4 _ _ _ _).
    destruct (is_code_point_valid cp); cbn [negb]; [|reflexivity].
    unfold is_overlong_sequence, minimal_length.
    destruct (Z.ltb_spec cp 0x80); cbn; [reflexivity|].
    destruct (Z.ltb_spec cp 0x800); cbn; [reflexivity|].
    destruct (Z.ltb_spec cp 0x10000); cbn; [reflexivity|].
    f_equal. f_equal. lia.
Qed.

(** C5. A sequence whose octet patterns are well formed but whose length
    exceeds the minimal length for the assembled code point never decodes:
    it is rejected with [OVERLONG_SEQUENCE], by a check that comes after the
    code-point validity check (a value which that check refuses is reported
    as [INVALID_CODE_POINT] first).  [next] throws accordingly.  The lemma
    that follows is the instance C0 80. *)
Theorem overlong_sequence_rejected (mem : list Z) (it end_ : nat) (c0 : Z) :
  well_formed_pattern mem it end_ ->
  minimal_length (assembled (sequence_length mem it) mem it)
  < sequence_length mem it ->
  validate_next mem it end_ c0 =
    (if is_code_point_valid (assembled (sequence_length mem it) mem it)
     then OVERLONG_SEQUENCE else INVALID_CODE_POINT, it, c0)
  /\ exists e, next mem it end_ = Throw e it.
Proof.
  intros WF Hlong.
  pose proof (validate_next_well_formed mem it end_) as V. cbv zeta in V.
  unfold next. rewrite !V by exact WF.
  apply Z.ltb_lt in Hlong. rewrite Hlong.
  destruct (is_code_point_valid _); cbn [negb]; split; eauto.
Qed.

Lemma overlong_c0_80 :
  well_formed_pattern [0xc0; 0x80] 0 2
  /\ minimal_length (assembled 2 [0xc0; 0x80] 0) < 2
  /\ validate_next [0xc0; 0x80] 0 2 0 = (OVERLONG_SEQUENCE, 0%nat, 0).
Proof.
  assert (WF : well_formed_pattern [0xc0; 0x80] 0 2).
  { split; [vm_compute; discriminate|].
    split; [vm_compute; auto|].
    intros k Hk. change (Z.to_nat (sequence_length [0xc0; 0x80] 0)) with 2%nat in Hk.
    assert (k = 1%nat) as -> by lia. reflexivity. }
  assert (ML : minimal_length (assembled 2 [0xc0; 0x80] 0) < 2) by reflexivity.
  split; [exact WF|]. split; [exact ML|].
  exact (proj1 (overlong_sequence_rejected [0xc0; 0x80] 0 2 0 WF ML)).
Defined.

(** The claim C6 as stated fails: E2 declares three octets and only two
    remain, yet the decoder reports the bad continuation octet 28. *)
Lemma truncated_but_incomplete :
  sequence_length [0xe2; 0x28] 0 = 3
  /\ (2 - 0 < 3)%nat
  /\ validate_next [0xe2; 0x28] 0 2 0 = (INCOMPLETE_SEQUENCE, 0%nat, 0).
Proof. repeat split; vm_compute; auto. Qed.

(** C6, amended. When the lead octet at a position before [end_] declares a
    length of which fewer octets remain before [end_], and every octet that
    remains after the lead is a continuation octet, the checked decode fails
    with [NOT_ENOUGH_ROOM].  The lemma after it is the instance E2 alone. *)
Theorem truncated_sequence_not_enough_room
  (mem : list Z) (it end_ : nat) (c0 : Z) :
  (it < end_)%nat ->
  1 <= sequence_length mem it ->
  (end_ - it < Z.to_nat (sequence_length mem it))%nat ->
  (forall k : nat, (it < k < end_)%nat -> is_trail (deref mem k) = true) ->
  validate_next mem it end_ c0 = (NOT_ENOUGH_ROOM, it, c0).
Proof.
  intros Hlt HL Hroom Htrail.
  rewrite validate_next_by_length.
  destruct (sequence_length_cases mem it) as [E|[E|[E|[E|E]]]];
    rewrite E in *; try lia; cbv beta iota;
    rewrite ?get_sequence_1_spec, ?get_sequence_2_spec, ?get_sequence_3_spec,
      ?get_sequence_4_spec; cbv zeta; unfold checked;
    change (Z.to_nat 1) with 1%nat in *; change (Z.to_nat 2) with 2%nat in *;
    change (Z.to_nat 3) with 3%nat in *; change (Z.to_nat 4) with 4%nat in *;
    try lia;
    rewrite (eqb_false_lt it end_) by lia;
    repeat match goal with
      | |- context [(?a =? end_)%nat] =>
          destruct (Nat.eqb_spec a end_);
          [reflexivity | rewrite (Htrail a) by lia; cbn [negb]]
      end; lia.
Qed.

Lemma truncated_e2 :
  (0 < 1)%nat /\ validate_next [0xe2] 0 1 0 = (NOT_ENOUGH_ROOM, 0%nat, 0).
Proof.
  split; [lia|].
  apply (truncated_sequence_not_enough_room [0xe2] 0 1 0).
  - lia.
  - vm_compute. discriminate.
  - vm_compute. lia.
  - intros k Hk. lia.
Defined.

(** The octets a decode at [it < end_] depends on lie in [[it, end_)]: two
    storages that agree there decode alike. *)
Lemma validate_next_reads_within_range (m1 m2 : list Z) (it end_ : nat) (c0 : Z) :
  (it < end_)%nat ->
  (forall i : nat, (it <= i < end_)%nat -> deref m1 i = deref m2 i) ->
  validate_next m1 it end_ c0 = validate_next m2 it end_ c0.
Proof.
  intros Hlt Hagree.
  assert (L : sequence_length m1 it = sequence_length m2 it).
  { unfold sequence_length. rewrite (Hagree it) by lia. reflexivity. }
  rewrite !validate_next_by_length, <- L.
  destruct (sequence_length_cases m1 it) as [E|[E|[E|[E|E]]]];
    rewrite E; cbv beta iota; try reflexivity; f_equal;
    rewrite ?get_sequence_1_spec, ?get_sequence_2_spec, ?get_sequence_3_spec,
      ?get_sequence_4_spec; cbv zeta; unfold octet;
    rewrite (eqb_false_lt it end_) by lia;
    rewrite (Hagree it) by lia;
    repeat match goal with
      | |- (if (?a =? end_)%nat then _ else _) = _ =>
          destruct (Nat.eqb_spec a end_);
          [reflexivity | rewrite (Hagree a) by lia]
      | |- (if ?b then _ else _) = _ => destruct b; try reflexivity
      end; reflexivity.
Qed.

(** C8, as far as the code goes.  On an empty range ([it == end]) the lead
    octet stored at [end] is read all the same, by [sequence_length], before
    any comparison with [end]: the result is [INVALID_LEAD] or
    [NOT_ENOUGH_ROOM] according to that octet, which lies outside the range.
    For the storage FF the call on the empty range at 0 reports
    [INVALID_LEAD], for 41 it reports [NOT_ENOUGH_ROOM]. *)
Theorem validate_next_reads_lead_of_empty_range :
  (forall (mem : list Z) (it : nat) (c0 : Z),
      validate_next mem it it c0 =
      (if sequence_length mem it =? 0 then INVALID_LEAD else NOT_ENOUGH_ROOM,
       it, c0))
  /\ validate_next [0xff] 0 0 0 = (INVALID_LEAD, 0%nat, 0)
  /\ validate_next [0x41] 0 0 0 = (NOT_ENOUGH_ROOM, 0%nat, 0)
  /\ next [0xff] 0 0 = Throw (invalid_utf8 0xff) 0%nat.
Proof.
  split; [|repeat split; vm_compute; reflexivity].
  intros mem it c0.
  by_length mem it; rewrite ?Nat.eqb_refl; reflexivity.
Qed.

(** ** The encoder *)

Lemma tag_facts_hold (x : Z) : 0 <= x < 64 -> tag_facts x = true.
Proof. apply (below_spec 64). vm_compute. reflexivity. Qed.

Lemma lor_80 (x : Z) : 0 <= x < 64 -> Z.lor x 0x80 = 0x80 + x.
Proof.
  intros H. pose proof (tag_facts_hold x H) as F. unfold tag_facts in F.
  repeat (apply andb_prop in F; destruct F as [F ?]). now apply Z.eqb_eq.
Qed.

Lemma lor_c0 (x : Z) : 0 <= x < 32 -> Z.lor x 0xc0 = 0xc0 + x.
Proof.
  intros H. assert (H' : 0 <= x < 64) by lia.
  pose proof (tag_facts_hold x H') as F. unfold tag_facts in F.
  repeat (apply andb_prop in F; destruct F as [F ?]).
  destruct (Z.ltb_spec x 32); [|lia]. now apply Z.eqb_eq.
Qed.

Lemma lor_e0 (x : Z) : 0 <= x < 16 -> Z.lor x 0xe0 = 0xe0 + x.
Proof.
  intros H. assert (H' : 0 <= x < 64) by lia.
  pose proof (tag_facts_hold x H') as F. unfold tag_facts in F.
  repeat (apply andb_prop in F; destruct F as [F ?]).
  destruct (Z.ltb_spec x 16); [|lia]. now apply Z.eqb_eq.
Qed.

Lemma lor_f0 (x : Z) : 0 <= x < 8 -> Z.lor x 0xf0 = 0xf0 + x.
Proof.
  intros H. assert (H' : 0 <= x < 64) by lia.
  pose proof (tag_facts_hold x H') as F. unfold tag_facts in F.
  repeat (apply andb_prop in F; destruct F as [F ?]).
  destruct (Z.ltb_spec x 8); [|lia]. now apply Z.eqb_eq.
Qed.

Lemma shiftr_div (x n d : Z) : 0 <= n -> d = 2 ^ n -> Z.shiftr x n = x / d.
Proof. intros Hn ->. now apply Z.shiftr_div_pow2. Qed.

Lemma u8_small (x : Z) : 0 <= x < 256 -> u8 x = x.
Proof. intros. unfold u8. now apply Z.mod_small. Qed.

Lemma valid_range (cp : Z) :
  is_code_point_valid cp = true ->
  cp <= 0x10ffff /\ (cp < 0xd800 \/ 0xdfff < cp).
Proof.
  unfold is_code_point_valid, is_surrogate, CODE_POINT_MAX,
    LEAD_SURROGATE_MIN, TRAIL_SURROGATE_MAX.
  intros H. apply andb_prop in H. destruct H as [H1 H2].
  apply Z.leb_le in H1. apply negb_true_iff in H2.
  apply andb_false_iff in H2. destruct H2 as [H2|H2];
    apply Z.leb_gt in H2; lia.
Qed.

Lemma valid_intro (cp : Z) :
  cp <= 0x10ffff -> cp < 0xd800 \/ 0xdfff < cp ->
  is_code_point_valid cp = true.
Proof.
  unfold is_code_point_valid, is_surrogate, CODE_POINT_MAX,
    LEAD_SURROGATE_MIN, TRAIL_SURROGATE_MAX.
  intros H1 H2. apply andb_true_intro. split; [now apply Z.leb_le|].
  apply negb_true_iff, andb_false_iff.
  destruct H2; [left|right]; apply Z.leb_gt; lia.
Qed.

Lemma append_encoding (cp : Z) (out : list Z) :
  0 <= cp -> is_code_point_valid cp = true ->
  append cp out = Ok tt (out ++ encoding cp).
Proof.
  intros H0 Hv. pose proof (valid_range cp Hv) as [Hmax _].
  unfold append, encoding. rewrite Hv. cbn [negb].
  rewrite !(land_low _ 6 0x3f) by (reflexivity || lia).
  rewrite (shiftr_div cp 6 64), (shiftr_div cp 12 4096),
    (shiftr_div cp 18 262144) by (reflexivity || lia).
  change (2 ^ 6) with 64.
  destruct (Z.ltb_spec cp 0x80).
  { rewrite u8_small by lia. reflexivity. }
  destruct (Z.ltb_spec cp 0x800).
  { rewrite lor_c0, lor_80 by euclid. rewrite !u8_small by euclid.
    reflexivity. }
  destruct (Z.ltb_spec cp 0x10000).
  { rewrite lor_e0, !lor_80 by euclid. rewrite !u8_small by euclid.
    reflexivity. }
  rewrite lor_f0, !lor_80 by euclid. rewrite !u8_small by euclid.
  reflexivity.
Qed.

(** C2. For a surrogate value and for a value above 0x10FFFF the checked
    [append] throws [invalid_code_point], carrying the value, and the output
    is what it was before the call: nothing has been written. *)
Theorem append_invalid_throws_before_writing (cp : Z) (out : list Z) :
  0xd800 <= cp <= 0xdfff \/ 0x10ffff < cp ->
  append cp out = Throw (invalid_code_point cp) out.
Proof.
  intros H. unfold append.
  assert (V : is_code_point_valid cp = false).
  { unfold is_code_point_valid, is_surrogate, CODE_POINT_MAX,
      LEAD_SURROGATE_MIN, TRAIL_SURROGATE_MAX.
    destruct H as [[H1 H2]|H].
    - apply Z.leb_le in H1, H2. rewrite H1, H2. apply andb_false_r.
    - apply Z.leb_gt in H. rewrite H. reflexivity. }
  rewrite V. reflexivity.
Qed.

Lemma append_invalid_witness :
  append 0xd800 [0x48; 0x65] = Throw (invalid_code_point 0xd800) [0x48; 0x65]
  /\ append 0x110000 [] = Throw (invalid_code_point 0x110000) [].
Proof.
  split.
  - apply (append_invalid_throws_before_writing 0xd800 [0x48; 0x65]). lia.
  - apply (append_invalid_throws_before_writing 0x110000 []). lia.
Defined.

Lemma deref_app (pre l : list Z) (k : nat) :
  deref (pre ++ l) (k + length pre) = nth k l 0.
Proof. unfold deref. rewrite Nat.add_comm. apply app_nth2_plus. Qed.

Lemma octet_app (pre l : list Z) (k : nat) :
  0 <= nth k l 0 < 256 -> octet (pre ++ l) (k + length pre) = nth k l 0.
Proof. intros. unfold octet. rewrite deref_app. now apply mask8_octet. Qed.

Lemma is_trail_range (oc : Z) :
  0x80 <= oc < 0xc0 -> is_trail oc = true.
Proof.
  intros. rewrite is_trail_octet by lia.
  apply andb_true_intro. split; [apply Z.leb_le | apply Z.ltb_lt]; lia.
Qed.

Ltac magnitude cp :=
  destruct (Z.ltb_spec cp 0x80);
  [| destruct (Z.ltb_spec cp 0x800); [| destruct (Z.ltb_spec cp 0x10000)]].

Ltac decide_ltb :=
  repeat match goal with
    | |- context [?a <? ?b] => destruct (Z.ltb_spec a b); try lia
    end.

(** C1. For every valid code point [cp], [append cp] succeeds and writes as
    many octets as the minimal length for the magnitude of [cp]; the checked
    decode ([validate_next], and [next]) of these octets, wherever they stand
    in the output and whatever follows them before [end_], succeeds, yields
    [cp], and leaves the position just after them. *)
Theorem decode_of_append
  (cp : Z) (out rest : list Z) (end_ : nat) (c0 : Z) :
  0 <= cp ->
  is_code_point_valid cp = true ->
  (length out + Z.to_nat (minimal_length cp) <= end_)%nat ->
  exists octets : list Z,
    append cp out = Ok tt (out ++ octets)
    /\ Z.of_nat (length octets) = minimal_length cp
    /\ validate_next (out ++ octets ++ rest) (length out) end_ c0
       = (UTF8_OK, (length out + length octets)%nat, cp)
    /\ next (out ++ octets ++ rest) (length out) end_
       = Ok cp (length out + length octets)%nat.
Proof.
  intros H0 Hv Hend. pose proof (valid_range cp Hv) as [Hmax _].
  exists (encoding cp). split; [now apply append_encoding|].
  set (mem := out ++ encoding cp ++ rest). set (it := length out).
  assert (HL : Z.of_nat (length (encoding cp)) = minimal_length cp).
  { unfold encoding, minimal_length. decide_ltb; reflexivity. }
  split; [exact HL|].
  assert (Hpos : (0 < length (encoding cp))%nat).
  { unfold encoding. decide_ltb; cbn; lia. }
  assert (O : forall k, (k < length (encoding cp))%nat ->
                        octet mem (k + it) = nth k (encoding cp) 0
                        /\ deref mem (k + it) = nth k (encoding cp) 0).
  { intros k Hk. unfold mem, it.
    assert (R : 0 <= nth k (encoding cp) 0 < 256).
    { revert Hk. unfold encoding. magnitude cp; cbn [length nth]; intros Hk;
        destruct k as [|[|[|[|k]]]]; cbn [nth]; try lia; euclid. }
    unfold octet. rewrite deref_app, app_nth1 by exact Hk.
    split; [now apply mask8_octet | reflexivity]. }
  assert (SL : sequence_length mem it = minimal_length cp).
  { rewrite sequence_length_class. cbv zeta.
    change (octet mem it) with (octet mem (0 + it)).
    rewrite (proj1 (O 0%nat Hpos)).
    unfold encoding, minimal_length.
    magnitude cp; cbn [nth]; decide_ltb; try reflexivity; euclid. }
  assert (WF : well_formed_pattern mem it end_).
  { unfold well_formed_pattern. rewrite SL.
    split; [unfold minimal_length; decide_ltb|].
    split; [exact Hend|].
    intros k Hk. rewrite (proj2 (O k ltac:(lia))).
    apply is_trail_range. revert Hk. unfold encoding, minimal_length.
    magnitude cp; intros Hk; destruct k as [|[|[|[|k]]]]; cbn [nth];
      try (cbn in Hk; lia); euclid. }
  assert (AS : assembled (minimal_length cp) mem it = cp).
  { revert O. unfold minimal_length, encoding.
    magnitude cp; cbn [length]; intros O; cbv beta iota delta [assembled];
      change (octet mem it) with (octet mem (0 + it));
      rewrite ?(proj1 (O 0%nat ltac:(lia))), ?(proj1 (O 1%nat ltac:(lia))),
        ?(proj1 (O 2%nat ltac:(lia))), ?(proj1 (O 3%nat ltac:(lia)));
      cbn [nth]; unfold payload_2, payload_3, payload_4; euclid. }
  pose proof (validate_next_well_formed mem it end_) as V. cbv zeta in V.
  assert (R : forall c, validate_next mem it end_ c
                        = (UTF8_OK, (it + length (encoding cp))%nat, cp)).
  { intros c. rewrite V by exact WF. rewrite SL, AS, Hv. cbn [negb].
    rewrite Z.ltb_irrefl. rewrite <- HL, Nat2Z.id. reflexivity. }
  split; [apply R|].
  unfold next. rewrite R. reflexivity.
Qed.

Lemma decode_of_append_euro :
  0 <= 0x20ac
  /\ is_code_point_valid 0x20ac = true
  /\ exists octets : list Z,
      append 0x20ac [0x41] = Ok tt ([0x41] ++ octets)
      /\ Z.of_nat (length octets) = minimal_length 0x20ac
      /\ validate_next ([0x41] ++ octets ++ [0x42]) 1 5 0
         = (UTF8_OK, (1 + length octets)%nat, 0x20ac)
      /\ next ([0x41] ++ octets ++ [0x42]) 1 5
         = Ok 0x20ac (1 + length octets)%nat.
Proof.
  split; [lia|]. split; [reflexivity|].
  apply (decode_of_append 0x20ac [0x41] [0x42] 5 0).
  - lia.
  - reflexivity.
  - vm_compute. lia.
Defined.

(** ** Decoded sequences re-encode to themselves *)

Lemma is_trail_bounds (mem : list Z) (it : nat) :
  is_trail (deref mem it) = true -> 0x80 <= octet mem it < 0xc0.
Proof.
  rewrite is_trail_mask8. fold (octet mem it).
  rewrite is_trail_octet by apply octet_range.
  intros H. apply andb_prop in H. destruct H as [H1 H2].
  apply Z.leb_le in H1. apply Z.ltb_lt in H2. lia.
Qed.

Lemma nat_eqb_false_lt (a b : nat) :
  (a =? b)%nat = false -> (a <= b)%nat -> (a < b)%nat.
Proof. intros H. apply Nat.eqb_neq in H. lia. Qed.

(** A successful decode: the position advances inside the range, the code
    point is valid, and its minimal-length encoding is the octets that were
    read. *)
Lemma validate_next_ok (mem : list Z) (it end_ it' : nat) (c0 cp : Z) :
  (it < end_)%nat ->
  validate_next mem it end_ c0 = (UTF8_OK, it', cp) ->
  (it < it' <= end_)%nat
  /\ 0 <= cp
  /\ is_code_point_valid cp = true
  /\ encoding cp = octets_of mem it it'.
Proof.
  intros Hlt.
  pose proof (payload_bounds mem it) as HB. cbv zeta in HB.
  destruct HB as (B1 & B2 & B3 & B4).
  pose proof (octet_range mem (S it)) as R1.
  pose proof (octet_range mem (S (S it))) as R2.
  pose proof (octet_range mem (S (S (S it)))) as R3.
  by_length mem it; split_ifs; intros V; inversion V; subst; clear V;
    repeat match goal with
      | H : negb _ = true |- _ => apply negb_true_iff in H
      | H : negb _ = false |- _ => apply negb_false_iff in H
      | H : is_trail (deref _ _) = true |- _ => apply is_trail_bounds in H
      | H : (_ =? _)%nat = false |- _ => apply Nat.eqb_neq in H
      end;
    specialize (B1 E) || specialize (B2 E)
    || specialize (B3 E) || specialize (B4 E);
    (split; [lia|]);
    match goal with
    | H : is_overlong_sequence _ _ = false |- _ =>
        unfold is_overlong_sequence in H; revert H
    end;
    unfold payload_2, payload_3, payload_4, encoding, octets_of;
    match goal with
    | |- context [(?b - it)%nat] =>
        let n := fresh "n" in
        let Hn := fresh "Hn" in
        remember (b - it)%nat as n eqn:Hn;
        (replace n with 1%nat by lia) || (replace n with 2%nat by lia)
        || (replace n with 3%nat by lia) || (replace n with 4%nat by lia)
    end; cbn [seq map];
    decide_ltb;
    (let Hov := fresh "Hov" in
     intros Hov; try (vm_compute in Hov; discriminate Hov); clear Hov);
    (split; [euclid|]); (split; [assumption|]);
    repeat (f_equal; try euclid).
Qed.

(** ** The loops *)

Lemma copy_octets_range (n : nat) (mem : list Z) (it : nat) (out : list Z) :
  copy_octets n mem it out = out ++ map (deref mem) (seq it n).
Proof.
  revert it out. induction n as [|n IH]; intros it out; cbn [copy_octets seq map].
  - now rewrite app_nil_r.
  - rewrite IH, <- app_assoc. reflexivity.
Qed.

Lemma range_split (mem : list Z) (a b c : nat) :
  (a <= b <= c)%nat -> range mem a c = range mem a b ++ range mem b c.
Proof.
  intros H. unfold range.
  replace (c - a)%nat with ((b - a) + (c - b))%nat by lia.
  rewrite seq_app, map_app. do 3 f_equal. lia.
Qed.

Lemma octets_of_split (mem : list Z) (a b c : nat) :
  (a <= b <= c)%nat ->
  octets_of mem a c = octets_of mem a b ++ octets_of mem b c.
Proof.
  intros H. unfold octets_of.
  replace (c - a)%nat with ((b - a) + (c - b))%nat by lia.
  rewrite seq_app, map_app. do 3 f_equal. lia.
Qed.

Lemma range_nil (mem : list Z) (a : nat) : range mem a a = [].
Proof. unfold range. now rewrite Nat.sub_diag. Qed.

Lemma range_app (pre l : list Z) :
  range (pre ++ l) (length pre) (length pre + length l) = l.
Proof.
  unfold range. replace (length pre + length l - length pre)%nat
    with (length l) by lia.
  revert pre. induction l as [|x l IH]; intros pre; [reflexivity|].
  cbn [length seq map]. f_equal.
  - change (length pre) with (0 + length pre)%nat. now rewrite deref_app.
  - replace (pre ++ x :: l) with ((pre ++ [x]) ++ l)
      by (now rewrite <- app_assoc).
    replace (S (length pre)) with (length (pre ++ [x]))
      by (rewrite length_app; cbn; lia).
    apply IH.
Qed.

Lemma range_all (mem : list Z) : range mem 0 (length mem) = mem.
Proof. exact (range_app [] mem). Qed.

Lemma octets_of_octets (mem : list Z) (a b : nat) :
  Forall (fun o => 0 <= o < 256) mem -> octets_of mem a b = range mem a b.
Proof.
  intros H. unfold octets_of, range. apply map_ext. intros i.
  unfold octet, deref. apply mask8_octet.
  destruct (Nat.lt_ge_cases i (length mem)) as [Hi|Hi].
  - rewrite Forall_forall in H. apply H. now apply nth_In.
  - rewrite nth_overflow by exact Hi. lia.
Qed.

(** The bound [end_ - start] that [replace_invalid] gives to [skip_trail] is
    never what stops the loop: it stops at [end_] or at an octet that is no
    continuation octet, having passed continuation octets only. *)
Lemma skip_trail_stops (mem : list Z) (start end_ : nat) :
  (start <= end_)%nat ->
  let q := skip_trail (end_ - start) mem start end_ in
  (start <= q <= end_)%nat
  /\ (forall k, (start <= k < q)%nat -> is_trail (deref mem k) = true)
  /\ (q = end_ \/ is_trail (deref mem q) = false).
Proof.
  cbv zeta. remember (end_ - start)%nat as n eqn:Hn.
  revert start Hn. induction n as [|n IH]; intros start Hn Hle; cbn [skip_trail].
  - split; [lia|]. split; [intros; lia|]. left. lia.
  - destruct (Nat.eqb_spec start end_) as [->|Hne]; [lia|]. cbn [negb andb].
    destruct (is_trail (deref mem start)) eqn:T.
    + destruct (IH (S start) ltac:(lia) ltac:(lia)) as (H1 & H2 & H3).
      split; [lia|]. split; [|exact H3].
      intros k Hk. destruct (Nat.eq_dec k start) as [->|]; [exact T|].
      apply H2. lia.
    + split; [lia|]. split; [intros; lia|]. now right.
Qed.

(** The position where the skipping loop stops is determined by that
    description. *)
Lemma skip_trail_unique (mem : list Z) (start end_ q : nat) :
  (start <= q <= end_)%nat ->
  (forall k, (start <= k < q)%nat -> is_trail (deref mem k) = true) ->
  q = end_ \/ is_trail (deref mem q) = false ->
  skip_trail (end_ - start) mem start end_ = q.
Proof.
  intros Hq Htrail Hstop.
  destruct (skip_trail_stops mem start end_ ltac:(lia)) as (H1 & H2 & H3).
  set (r := skip_trail (end_ - start) mem start end_) in *.
  destruct (Nat.lt_trichotomy r q) as [Hlt|[Heq|Hgt]]; [|exact Heq|].
  - destruct H3 as [H3|H3]; [lia|].
    rewrite (Htrail r) in H3 by lia. discriminate.
  - destruct Hstop as [Hs|Hs]; [lia|].
    rewrite (H2 q) in Hs by lia. discriminate.
Qed.

Lemma validate_next_2_eq (mem : list Z) (it end_ : nat) :
  validate_next_2 mem it end_ =
  (fst (fst (validate_next mem it end_ 0)),
   snd (fst (validate_next mem it end_ 0))).
Proof.
  unfold validate_next_2.
  destruct (validate_next mem it end_ 0) as [[e i] c]. reflexivity.
Qed.

Lemma validate_next_failure_position (mem : list Z) (it end_ : nat) (c0 : Z)
  (err : utf_error) (it' : nat) (cp : Z) :
  validate_next mem it end_ c0 = (err, it', cp) ->
  err <> UTF8_OK -> it' = it.
Proof.
  intros V Herr.
  pose proof (validate_next_moves mem it end_ c0) as P.
  rewrite V in P. destruct err; cbn in P; congruence.
Qed.

Lemma find_invalid_bounds (fuel : nat) (mem : list Z) (start end_ p : nat) :
  (start <= end_)%nat ->
  find_invalid fuel mem start end_ = Some p ->
  (start <= p <= end_)%nat.
Proof.
  revert start. induction fuel as [|fuel IH]; intros start Hle; cbn [find_invalid].
  - destruct (Nat.eqb_spec start end_); [|discriminate].
    intros [= <-]. lia.
  - destruct (Nat.eqb_spec start end_) as [->|Hne]; [intros [= <-]; lia|].
    rewrite validate_next_2_eq.
    destruct (validate_next mem start end_ 0) as [[err it'] cp] eqn:V.
    cbn [fst snd]. destruct err; cbn [utf_error_eqb negb].
    { apply validate_next_ok in V; [|lia]. intros F.
      apply IH in F; lia. }
    all: apply validate_next_failure_position in V; [|discriminate].
    all: intros [= <-]; lia.
Qed.

(** C9. [replace_invalid] encodes the replacement through the checked
    [append].  When the input holds a malformed unit (the first sequence
    that does not decode, at [p], is no truncation) and the replacement is
    itself invalid, the whole call throws [invalid_code_point]; the output
    then holds the well-formed units before [p], copied, and no octet of a
    replacement. *)
Theorem replace_invalid_checks_replacement
  (fuel : nat) (mem : list Z) (start end_ p : nat) (out : list Z)
  (replacement : Z) :
  (start <= end_)%nat ->
  is_code_point_valid replacement = false ->
  find_invalid fuel mem start end_ = Some p ->
  p <> end_ ->
  fst (validate_next_2 mem p end_) <> NOT_ENOUGH_ROOM ->
  replace_invalid fuel mem start end_ out replacement
  = Some (Throw (invalid_code_point replacement) (out ++ range mem start p)).
Proof.
  intros Hle Hrep. revert start out Hle.
  assert (A : forall o, append replacement o
                        = Throw (invalid_code_point replacement) o).
  { intros o. unfold append. rewrite Hrep. reflexivity. }
  induction fuel as [|fuel IH]; intros start out Hle;
    cbn [find_invalid replace_invalid].
  - destruct (Nat.eqb_spec start end_); [|discriminate].
    intros [= <-]. congruence.
  - destruct (Nat.eqb_spec start end_) as [->|Hne]; [intros [= <-]; congruence|].
    rewrite validate_next_2_eq.
    destruct (validate_next mem start end_ 0) as [[err it'] cp] eqn:V.
    cbn [fst snd]. destruct err; cbn [utf_error_eqb negb].
    { intros F Hp Hkind.
      assert (Hlt : (start < end_)%nat) by lia.
      pose proof (validate_next_ok _ _ _ _ _ _ Hlt V) as (Hit & _).
      assert (Hle' : (it' <= end_)%nat) by lia.
      pose proof (find_invalid_bounds _ _ _ _ _ Hle' F) as Hb.
      rewrite copy_octets_range. fold (range mem start it').
      rewrite (IH it' _ Hle' F Hp Hkind).
      rewrite <- app_assoc, <- range_split by lia. reflexivity. }
    all: pose proof (validate_next_failure_position _ _ _ _ _ _ _ V
                       ltac:(discriminate)) as ->.
    all: intros [= <-] _ Hkind.
    all: rewrite validate_next_2_eq, V in Hkind; cbn [fst] in Hkind.
    all: try congruence.
    all: rewrite A, range_nil, app_nil_r; reflexivity.
Qed.

Lemma replace_invalid_surrogate_replacement :
  is_code_point_valid 0xd800 = false
  /\ find_invalid 2 [0x48; 0xff] 0 2 = Some 1%nat
  /\ replace_invalid 2 [0x48; 0xff] 0 2 [] 0xd800
     = Some (Throw (invalid_code_point 0xd800) [0x48]).
Proof.
  split; [reflexivity|]. split; [reflexivity|].
  apply (replace_invalid_checks_replacement 2 [0x48; 0xff] 0 2 1 [] 0xd800).
  - lia.
  - reflexivity.
  - reflexivity.
  - lia.
  - vm_compute. discriminate.
Defined.

(** ** The sanitizer, unit by unit *)

Lemma units_bounds (mem : list Z) (end_ it : nat) (us : list input_unit) :
  units mem end_ it us -> (it <= end_)%nat /\ (length us <= end_ - it)%nat.
Proof.
  induction 1 as [|it it' cp us Hne V _ IH|it us Hne V _ IH
                 |it q us Hne V Hq Ht Hs _ IH]; cbn [length].
  - lia.
  - destruct IH as [IH1 IH2].
    destruct (Nat.le_gt_cases it end_) as [Hle|Hgt].
    + assert (Hlt : (it < end_)%nat) by lia.
      pose proof (validate_next_ok _ _ _ _ _ _ Hlt V) as (Hit & _). lia.
    + pose proof (validate_next_moves mem it end_ 0) as P.
      rewrite V in P. cbn in P. lia.
  - lia.
  - lia.
Qed.

(** C4. [replace_invalid] writes the octets of every well-formed unit as
    they are and one encoded replacement for every malformed unit, where a
    malformed unit is one octet after [INVALID_LEAD], and one octet with all
    the continuation octets that follow it immediately after
    [INCOMPLETE_SEQUENCE], [OVERLONG_SEQUENCE] or [INVALID_CODE_POINT].  The
    lemma that follows is the instance 48 65 FF 6C 6C 6F, and the overlong
    E0 80 80 before 41. *)
Theorem replace_invalid_by_units
  (fuel : nat) (mem : list Z) (start end_ : nat) (out : list Z)
  (replacement : Z) (us : list input_unit) :
  0 <= replacement ->
  is_code_point_valid replacement = true ->
  units mem end_ start us ->
  (end_ - start <= fuel)%nat ->
  replace_invalid fuel mem start end_ out replacement
  = Some (Ok tt (out ++ flat_map (render replacement) us)).
Proof.
  intros H0 Hv U. revert fuel out.
  induction U as [|it it' cp us Hne V U IH|it us Hne V U IH
                 |it q us Hne V Hq Ht Hs U IH]; intros fuel out Hfuel.
  - destruct fuel; cbn [replace_invalid]; rewrite Nat.eqb_refl;
      cbn [flat_map]; now rewrite app_nil_r.
  - pose proof (units_bounds _ _ _ _ U) as [Hle _].
    pose proof (validate_next_moves mem it end_ 0) as P.
    rewrite V in P. cbn in P.
    destruct fuel as [|fuel]; [lia|]. cbn [replace_invalid].
    rewrite (proj2 (Nat.eqb_neq it end_) Hne).
    rewrite validate_next_2_eq, V. cbn [fst snd].
    rewrite copy_octets_range. fold (range mem it it').
    rewrite IH by lia. cbn [flat_map render]. now rewrite <- app_assoc.
  - pose proof (units_bounds _ _ _ _ U) as [Hle _].
    destruct fuel as [|fuel]; [lia|]. cbn [replace_invalid].
    rewrite (proj2 (Nat.eqb_neq it end_) Hne).
    destruct (validate_next_2 mem it end_) as [err it'] eqn:V2.
    cbn [fst] in V. subst err.
    assert (it' = it) as ->.
    { rewrite validate_next_2_eq in V2.
      destruct (validate_next mem it end_ 0) as [[e i] c] eqn:V0.
      cbn [fst snd] in V2. injection V2 as -> ->.
      now apply (validate_next_failure_position _ _ _ _ _ _ _ V0). }
    rewrite append_encoding by assumption.
    rewrite IH by lia. cbn [flat_map render]. now rewrite <- app_assoc.
  - pose proof (units_bounds _ _ _ _ U) as [Hle _].
    destruct fuel as [|fuel]; [lia|]. cbn [replace_invalid].
    rewrite (proj2 (Nat.eqb_neq it end_) Hne).
    destruct (validate_next_2 mem it end_) as [err it'] eqn:V2.
    cbn [fst] in V.
    assert (it' = it) as ->.
    { rewrite validate_next_2_eq in V2.
      destruct (validate_next mem it end_ 0) as [[e i] c] eqn:V0.
      cbn [fst snd] in V2. injection V2 as -> ->.
      apply (validate_next_failure_position _ _ _ _ _ _ _ V0).
      intros ->. discriminate. }
    rewrite append_encoding by assumption.
    rewrite (skip_trail_unique mem (S it) end_ q Hq Ht Hs).
    destruct err; try discriminate;
      rewrite IH by lia; cbn [flat_map render]; now rewrite <- app_assoc.
Qed.

Lemma replace_invalid_hello :
  replace_invalid_3 6 [0x48; 0x65; 0xff; 0x6c; 0x6c; 0x6f] 0 6 []
  = Some (Ok tt [0x48; 0x65; 0xef; 0xbf; 0xbd; 0x6c; 0x6c; 0x6f])
  /\ replace_invalid_3 4 [0xe0; 0x80; 0x80; 0x41] 0 4 []
     = Some (Ok tt [0xef; 0xbf; 0xbd; 0x41]).
Proof.
  split.
  - apply (replace_invalid_by_units 6 [0x48; 0x65; 0xff; 0x6c; 0x6c; 0x6f]
             0 6 [] replacement_marker
             [WellFormed [0x48]; WellFormed [0x65]; Malformed 1;
              WellFormed [0x6c]; WellFormed [0x6c]; WellFormed [0x6f]]).
    + vm_compute. discriminate.
    + reflexivity.
    + set (mem := [0x48; 0x65; 0xff; 0x6c; 0x6c; 0x6f]).
      refine (units_well_formed mem 6 0 1 0x48 _ _ _ _); [lia | reflexivity |].
      refine (units_well_formed mem 6 1 2 0x65 _ _ _ _); [lia | reflexivity |].
      refine (units_invalid_lead mem 6 2 _ _ _ _); [lia | reflexivity |].
      refine (units_well_formed mem 6 3 4 0x6c _ _ _ _); [lia | reflexivity |].
      refine (units_well_formed mem 6 4 5 0x6c _ _ _ _); [lia | reflexivity |].
      refine (units_well_formed mem 6 5 6 0x6f _ _ _ _); [lia | reflexivity |].
      apply units_end.
    + lia.
  - apply (replace_invalid_by_units 4 [0xe0; 0x80; 0x80; 0x41] 0 4 []
             replacement_marker [Malformed 3; WellFormed [0x41]]).
    + vm_compute. discriminate.
    + reflexivity.
    + set (mem := [0xe0; 0x80; 0x80; 0x41]).
      refine (units_malformed_run mem 4 0 3 _ _ _ _ _ _ _).
      * lia.
      * reflexivity.
      * lia.
      * intros k Hk.
        assert (K : k = 1%nat \/ k = 2%nat) by lia.
        destruct K as [->| ->]; reflexivity.
      * right. reflexivity.
      * refine (units_well_formed mem 4 3 4 0x41 _ _ _ _);
          [lia | reflexivity |].
        apply units_end.
    + lia.
Defined.

(** ** UTF-8 to UTF-16 and back *)

Lemma surrogate_pair (cp : Z) :
  0xffff < cp <= 0x10ffff ->
  let lead := u16 (u32 (Z.shiftr cp 10 + LEAD_OFFSET)) in
  let trail := u16 (u32 (Z.land cp 0x3ff + TRAIL_SURROGATE_MIN)) in
  (0xd800 <= lead <= 0xdbff)
  /\ (0xdc00 <= trail <= 0xdfff)
  /\ from_surrogates lead trail = cp
  /\ Z.shiftl (lead - 0xd800) 10 + (trail - 0xdc00) + 0x10000 = cp.
Proof.
  intros H. cbv zeta. unfold from_surrogates.
  change LEAD_OFFSET with 0xd7c0. change TRAIL_SURROGATE_MIN with 0xdc00.
  change SURROGATE_OFFSET with 0xfca02400.
  rewrite (shiftr_div cp 10 1024) by (reflexivity || lia).
  rewrite land_3ff. rewrite !Z.shiftl_mul_pow2 by lia.
  unfold u16, u32. change (2 ^ 10) with 1024. change (2 ^ 16) with 65536.
  change (2 ^ 32) with 4294967296.
  rewrite (Z.mod_small (cp / 1024 + 55232) 4294967296) by euclid.
  rewrite (Z.mod_small (cp mod 1024 + 56320) 4294967296) by euclid.
  rewrite (Z.mod_small (cp / 1024 + 55232) 65536) by euclid.
  rewrite (Z.mod_small (cp mod 1024 + 56320) 65536) by euclid.
  rewrite (Z.mod_small ((cp / 1024 + 55232) * 1024) 4294967296) by euclid.
  rewrite (Z.mod_small ((cp / 1024 + 55232) * 1024 + (cp mod 1024 + 56320))
             4294967296) by euclid.
  repeat split; euclid.
Qed.

Lemma mask16_u16 (x : Z) : 0 <= x < 65536 -> u32 (mask16 x) = x.
Proof.
  intros. rewrite mask16_mod, Z.mod_small by lia. apply u32_small. lia.
Qed.

Lemma utf16_units_range (cp : Z) (k : nat) :
  0 <= cp <= 0x10ffff -> 0 <= nth k (utf16_units cp) 0 < 65536.
Proof.
  intros H. unfold utf16_units.
  destruct (Z.ltb_spec 0xffff cp) as [Hhi|Hlo].
  - pose proof (surrogate_pair cp ltac:(lia)) as S. cbv zeta in S.
    destruct S as (S1 & S2 & _).
    destruct k as [|[|[|k]]]; cbn [nth]; lia.
  - destruct k as [|[|k]]; cbn [nth]; try lia.
    unfold u16. rewrite Z.mod_small; change (2 ^ 16) with 65536; lia.
Qed.

Lemma utf16to8_step (fuel : nat) (cp : Z) (pre rest : list Z) (end_ : nat)
  (result : list Z) :
  0 <= cp ->
  is_code_point_valid cp = true ->
  (length pre + length (utf16_units cp) <= end_)%nat ->
  utf16to8 (S fuel) (pre ++ utf16_units cp ++ rest) (length pre) end_ result
  = utf16to8 fuel (pre ++ utf16_units cp ++ rest)
      (length pre + length (utf16_units cp)) end_ (result ++ encoding cp).
Proof.
  intros H0 Hv Hend. pose proof (valid_range cp Hv) as [Hmax Hsur].
  set (mem := pre ++ utf16_units cp ++ rest).
  assert (D : forall k, (k < length (utf16_units cp))%nat ->
                        u32 (mask16 (deref mem (k + length pre)))
                        = nth k (utf16_units cp) 0).
  { intros k Hk. unfold mem. rewrite deref_app, app_nth1 by exact Hk.
    apply mask16_u16, utf16_units_range. lia. }
  cbn [utf16to8]. fold mem.
  assert (Hlen : (0 < length (utf16_units cp))%nat).
  { unfold utf16_units. destruct (0xffff <? cp); cbn; lia. }
  rewrite eqb_false_lt by lia.
  change (deref mem (length pre)) with (deref mem (0 + length pre)).
  rewrite (D 0%nat Hlen).
  revert D Hend Hlen. unfold utf16_units.
  destruct (Z.ltb_spec 0xffff cp) as [Hhi|Hlo]; cbn [length nth];
    intros D Hend Hlen.
  - pose proof (surrogate_pair cp ltac:(lia)) as S. cbv zeta in S.
    destruct S as (S1 & S2 & S3 & _).
    set (lead := u16 (u32 (Z.shiftr cp 10 + LEAD_OFFSET))) in *.
    set (trail := u16 (u32 (Z.land cp 0x3ff + TRAIL_SURROGATE_MIN))) in *.
    assert (L : is_lead_surrogate lead = true).
    { unfold is_lead_surrogate, LEAD_SURROGATE_MIN, LEAD_SURROGATE_MAX.
      apply andb_true_intro. split; apply Z.leb_le; lia. }
    rewrite L. rewrite eqb_false_lt by lia. cbn [negb].
    change (deref mem (S (length pre))) with (deref mem (1 + length pre)).
    rewrite (D 1%nat ltac:(lia)).
    assert (T : is_trail_surrogate trail = true).
    { unfold is_trail_surrogate, TRAIL_SURROGATE_MIN, TRAIL_SURROGATE_MAX.
      apply andb_true_intro. split; apply Z.leb_le; lia. }
    rewrite T. fold (from_surrogates lead trail). rewrite S3.
    rewrite append_encoding by assumption.
    f_equal. lia.
  - unfold u16. change (2 ^ 16) with 65536. rewrite Z.mod_small by lia.
    assert (L : is_lead_surrogate cp = false).
    { unfold is_lead_surrogate, LEAD_SURROGATE_MIN, LEAD_SURROGATE_MAX.
      apply andb_false_iff. destruct Hsur; [left|right]; apply Z.leb_gt; lia. }
    assert (T : is_trail_surrogate cp = false).
    { unfold is_trail_surrogate, TRAIL_SURROGATE_MIN, TRAIL_SURROGATE_MAX.
      apply andb_false_iff. destruct Hsur; [left|right]; apply Z.leb_gt; lia. }
    rewrite L, T. rewrite append_encoding by assumption.
    f_equal. lia.
Qed.

Lemma decoded_surrogate_pair (cp : Z) :
  decoded cp -> 0xffff < cp -> exists lead trail, surrogate_pair_of cp lead trail.
Proof.
  intros [H0 Hv] Hhi. pose proof (valid_range cp Hv) as [Hmax _].
  pose proof (surrogate_pair cp ltac:(lia)) as S. cbv zeta in S.
  destruct S as (S1 & S2 & S3 & S4).
  exists (u16 (u32 (Z.shiftr cp 10 + LEAD_OFFSET))),
    (u16 (u32 (Z.land cp 0x3ff + TRAIL_SURROGATE_MIN))).
  unfold surrogate_pair_of.
  split; [unfold utf16_units; rewrite (proj2 (Z.ltb_lt _ _) Hhi); reflexivity|].
  set (lead := u16 (u32 (Z.shiftr cp 10 + LEAD_OFFSET))) in *.
  set (trail := u16 (u32 (Z.land cp 0x3ff + TRAIL_SURROGATE_MIN))) in *.
  split.
  { unfold is_lead_surrogate, LEAD_SURROGATE_MIN, LEAD_SURROGATE_MAX.
    apply andb_true_intro. split; apply Z.leb_le; lia. }
  split.
  { unfold is_trail_surrogate, TRAIL_SURROGATE_MIN, TRAIL_SURROGATE_MAX.
    apply andb_true_intro. split; apply Z.leb_le; lia. }
  split; assumption.
Qed.

Lemma utf16to8_encodes (cps : list Z) :
  Forall decoded cps ->
  forall (fuel : nat) (pre result : list Z),
    (length cps <= fuel)%nat ->
    utf16to8 fuel (pre ++ flat_map utf16_units cps) (length pre)
      (length pre + length (flat_map utf16_units cps)) result
    = Some (Ok tt (result ++ flat_map encoding cps)).
Proof.
  induction 1 as [|cp cps [H0 Hv] _ IH]; intros fuel pre result Hfuel.
  - cbn [flat_map length]. rewrite Nat.add_0_r, !app_nil_r.
    destruct fuel; cbn [utf16to8]; now rewrite Nat.eqb_refl.
  - cbn [length] in Hfuel. destruct fuel as [|fuel]; [lia|].
    cbn [flat_map]. rewrite length_app.
    rewrite utf16to8_step by (assumption || lia).
    rewrite (app_assoc pre).
    replace (length pre + length (utf16_units cp))%nat
      with (length (pre ++ utf16_units cp)) by now rewrite length_app.
    replace (length pre + (length (utf16_units cp)
                            + length (flat_map utf16_units cps)))%nat
      with (length (pre ++ utf16_units cp)
            + length (flat_map utf16_units cps))%nat
      by (rewrite length_app; lia).
    rewrite IH by lia. now rewrite <- app_assoc.
Qed.

Lemma utf16_units_length (cps : list Z) :
  Forall decoded cps ->
  (length cps <= length (flat_map utf16_units cps)
   <= length (flat_map encoding cps))%nat.
Proof.
  induction 1 as [|cp cps [H0 Hv] _ IH]; cbn [flat_map length]; [lia|].
  rewrite !length_app.
  assert (1 <= length (utf16_units cp) <= length (encoding cp))%nat.
  { unfold utf16_units, encoding.
    destruct (Z.ltb_spec 0xffff cp); magnitude cp; cbn [length]; lia. }
  lia.
Qed.

(** ** The loops end *)

(** Each loop over a range moves its position towards [end_] in every
    iteration, so a fuel of [end_ - start] is never used up. *)
Lemma find_invalid_terminates (fuel : nat) (mem : list Z) (start end_ : nat) :
  (start <= end_)%nat -> (end_ - start <= fuel)%nat ->
  find_invalid fuel mem start end_ <> None.
Proof.
  revert start. induction fuel as [|fuel IH]; intros start Hle Hfuel;
    cbn [find_invalid].
  - rewrite (proj2 (Nat.eqb_eq start end_)) by lia. discriminate.
  - destruct (Nat.eqb_spec start end_) as [->|Hne]; [discriminate|].
    rewrite validate_next_2_eq.
    destruct (validate_next mem start end_ 0) as [[err it'] cp] eqn:V.
    cbn [fst snd]. destruct err; cbn [utf_error_eqb negb]; try discriminate.
    assert (Hlt : (start < end_)%nat) by lia.
    pose proof (validate_next_ok _ _ _ _ _ _ Hlt V) as (Hit & _).
    apply IH; lia.
Qed.

Lemma replace_invalid_terminates
  (fuel : nat) (mem : list Z) (start end_ : nat) (out : list Z)
  (replacement : Z) :
  (start <= end_)%nat -> (end_ - start <= fuel)%nat ->
  replace_invalid fuel mem start end_ out replacement <> None.
Proof.
  revert start out. induction fuel as [|fuel IH]; intros start out Hle Hfuel;
    cbn [replace_invalid].
  - rewrite (proj2 (Nat.eqb_eq start end_)) by lia. discriminate.
  - destruct (Nat.eqb_spec start end_) as [->|Hne]; [discriminate|].
    rewrite validate_next_2_eq.
    destruct (validate_next mem start end_ 0) as [[err it'] cp] eqn:V.
    cbn [fst snd].
    assert (Hlt : (start < end_)%nat) by lia.
    destruct err.
    { pose proof (validate_next_ok _ _ _ _ _ _ Hlt V) as (Hit & _).
      apply IH; lia. }
    { discriminate. }
    all: pose proof (validate_next_failure_position _ _ _ _ _ _ _ V
                       ltac:(discriminate)) as ->.
    all: destruct (append replacement out) as [? out'|? out'];
      [|discriminate].
    { apply IH; lia. }
    all: pose proof (skip_trail_stops mem (S start) end_ Hlt) as (Hq & _).
    all: apply IH; lia.
Qed.

Lemma utf8to16_terminates
  (fuel : nat) (mem : list Z) (start end_ : nat) (result : list Z) :
  (start <= end_)%nat -> (end_ - start <= fuel)%nat ->
  utf8to16 fuel mem start end_ result <> None.
Proof.
  revert start result.
  induction fuel as [|fuel IH]; intros start result Hle Hfuel;
    cbn [utf8to16].
  - rewrite (proj2 (Nat.eqb_eq start end_)) by lia. discriminate.
  - destruct (Nat.eqb_spec start end_) as [->|Hne]; [discriminate|].
    unfold next.
    destruct (validate_next mem start end_ 0) as [[err it'] cp] eqn:V.
    destruct err; try discriminate.
    assert (Hlt : (start < end_)%nat) by lia.
    pose proof (validate_next_ok _ _ _ _ _ _ Hlt V) as (Hit & _).
    destruct (0xffff <? cp); apply IH; lia.
Qed.

Lemma utf16to8_terminates
  (fuel : nat) (mem : list Z) (start end_ : nat) (result : list Z) :
  (start <= end_)%nat -> (end_ - start <= fuel)%nat ->
  utf16to8 fuel mem start end_ result <> None.
Proof.
  revert start result.
  induction fuel as [|fuel IH]; intros start result Hle Hfuel;
    cbn [utf16to8].
  - rewrite (proj2 (Nat.eqb_eq start end_)) by lia. discriminate.
  - destruct (Nat.eqb_spec start end_) as [->|Hne]; [discriminate|].
    destruct (is_lead_surrogate _).
    + destruct (Nat.eqb_spec (S start) end_) as [He|Hne']; cbn [negb];
        [discriminate|].
      destruct (is_trail_surrogate _); [|discriminate].
      destruct (append _ result); [|discriminate]. apply IH; lia.
    + destruct (is_trail_surrogate _); [discriminate|].
      destruct (append _ result); [|discriminate]. apply IH; lia.
Qed.


(** * Beyond the claims: the rest of the checked interface *)

(** ** The decoder accepts what the encoder writes, wherever it stands *)

Lemma encoding_length (cp : Z) :
  Z.of_nat (length (encoding cp)) = minimal_length cp.
Proof. unfold encoding, minimal_length. magnitude cp; reflexivity. Qed.

Lemma encoding_octets (cp : Z) (k : nat) :
  decoded cp -> (k < length (encoding cp))%nat ->
  0 <= nth k (encoding cp) 0 < 256.
Proof.
  intros [H0 Hv] Hk. pose proof (valid_range cp Hv) as [Hmax _].
  revert Hk. unfold encoding. magnitude cp; cbn [length nth]; intros Hk;
    destruct k as [|[|[|[|k]]]]; cbn [nth]; try lia; euclid.
Qed.

Lemma validate_next_encoding (mem : list Z) (it end_ : nat) (c0 cp : Z) :
  decoded cp ->
  (forall k : nat, (k < length (encoding cp))%nat ->
                   octet mem (k + it) = nth k (encoding cp) 0) ->
  (it + length (encoding cp) <= end_)%nat ->
  validate_next mem it end_ c0
  = (UTF8_OK, (it + length (encoding cp))%nat, cp).
Proof.
  intros [H0 Hv] O Hend. pose proof (valid_range cp Hv) as [Hmax _].
  pose proof (encoding_length cp) as HL.
  assert (Hpos : (0 < length (encoding cp))%nat).
  { unfold encoding. magnitude cp; cbn; lia. }
  assert (SL : sequence_length mem it = minimal_length cp).
  { rewrite sequence_length_class. cbv zeta.
    change (octet mem it) with (octet mem (0 + it)).
    rewrite (O 0%nat Hpos).
    unfold encoding, minimal_length.
    magnitude cp; cbn [nth]; decide_ltb; try reflexivity; euclid. }
  assert (WF : well_formed_pattern mem it end_).
  { unfold well_formed_pattern. rewrite SL.
    split; [unfold minimal_length; decide_ltb|].
    split; [lia|].
    intros k Hk. rewrite is_trail_mask8. fold (octet mem (k + it)).
    rewrite (O k ltac:(lia)).
    apply is_trail_range. revert Hk. unfold encoding, minimal_length.
    magnitude cp; intros Hk; destruct k as [|[|[|[|k]]]]; cbn [nth];
      try (cbn in Hk; lia); euclid. }
  assert (AS : assembled (minimal_length cp) mem it = cp).
  { revert O. unfold minimal_length, encoding.
    magnitude cp; cbn [length]; intros O; cbv beta iota delta [assembled];
      change (octet mem it) with (octet mem (0 + it));
      rewrite ?(O 0%nat ltac:(lia)), ?(O 1%nat ltac:(lia)),
        ?(O 2%nat ltac:(lia)), ?(O 3%nat ltac:(lia));
      cbn [nth]; unfold payload_2, payload_3, payload_4; euclid. }
  pose proof (validate_next_well_formed mem it end_ c0 WF) as V.
  cbv zeta in V. rewrite V, SL, AS, Hv. cbn [negb].
  rewrite Z.ltb_irrefl. rewrite <- HL, Nat2Z.id. reflexivity.
Qed.

Lemma octets_of_length (mem : list Z) (a b : nat) :
  length (octets_of mem a b) = (b - a)%nat.
Proof. unfold octets_of. now rewrite length_map, length_seq. Qed.

Lemma octets_of_nth (mem : list Z) (a b k : nat) :
  (k < b - a)%nat -> nth k (octets_of mem a b) 0 = octet mem (k + a).
Proof.
  intros Hk. unfold octets_of.
  rewrite (nth_indep _ 0 (octet mem 0)) by (now rewrite length_map, length_seq).
  rewrite map_nth, seq_nth by exact Hk. f_equal. lia.
Qed.

Lemma validate_next_ok_bound
  (mem : list Z) (it end_ it' e : nat) (c0 c1 cp : Z) :
  (it < end_)%nat ->
  validate_next mem it end_ c0 = (UTF8_OK, it', cp) ->
  (it' <= e)%nat ->
  validate_next mem it e c1 = (UTF8_OK, it', cp).
Proof.
  intros Hlt V He'.
  pose proof (validate_next_ok mem it end_ it' c0 cp Hlt V) as (Hit & H0 & Hv & He).
  assert (Hlen : length (encoding cp) = (it' - it)%nat).
  { rewrite He. apply octets_of_length. }
  replace it' with (it + length (encoding cp))%nat by lia.
  apply validate_next_encoding; [split; assumption| |lia].
  intros k Hk. rewrite He. symmetry. apply octets_of_nth. lia.
Qed.

(** ** Ranges that decode *)

Lemma decodes_facts (mem : list Z) (end_ it : nat) (cps : list Z) :
  decodes mem end_ it cps ->
  (it <= end_)%nat
  /\ Forall decoded cps
  /\ flat_map encoding cps = octets_of mem it end_
  /\ (length cps <= end_ - it)%nat.
Proof.
  induction 1 as [|it it' cp cps Hne V D IH].
  - split; [lia|]. split; [constructor|].
    unfold octets_of. rewrite Nat.sub_diag. cbn. split; [reflexivity|lia].
  - destruct IH as (Hle & Hd & He & Hn).
    pose proof (validate_next_moves mem it end_ 0) as P.
    rewrite V in P. cbn in P. destruct P as [_ P].
    assert (Hlt : (it < end_)%nat) by lia.
    pose proof (validate_next_ok _ _ _ _ _ _ Hlt V) as (Hit & H0 & Hv & Hcp).
    split; [lia|]. split; [constructor; [split; assumption|exact Hd]|].
    split.
    + cbn [flat_map]. rewrite He, Hcp. symmetry. apply octets_of_split. lia.
    + cbn [length]. lia.
Qed.

Lemma find_invalid_decodes (mem : list Z) (end_ : nat) (fuel : nat) :
  forall start : nat,
    (start <= end_)%nat ->
    find_invalid fuel mem start end_ = Some end_ ->
    exists cps : list Z,
      decodes mem end_ start cps /\ (length cps <= fuel)%nat.
Proof.
  induction fuel as [|fuel IH]; intros start Hle; cbn [find_invalid].
  - destruct (Nat.eqb_spec start end_) as [->|]; [|discriminate].
    intros _. exists []. split; [constructor|cbn; lia].
  - destruct (Nat.eqb_spec start end_) as [->|Hne].
    { intros _. exists []. split; [constructor|cbn; lia]. }
    rewrite validate_next_2_eq.
    destruct (validate_next mem start end_ 0) as [[err it'] cp] eqn:V.
    cbn [fst snd].
    destruct err; cbn [utf_error_eqb negb];
      try (pose proof (validate_next_failure_position _ _ _ _ _ _ _ V
                         ltac:(discriminate)) as ->;
           intros [= ?]; congruence).
    intros F.
    assert (Hlt : (start < end_)%nat) by lia.
    pose proof (validate_next_ok _ _ _ _ _ _ Hlt V) as (Hit & _).
    destruct (IH it' ltac:(lia) F) as (cps & D & Hn).
    exists (cp :: cps). split; [|cbn; lia].
    now apply (decodes_next mem end_ start it' cp cps).
Qed.

Lemma decodes_find_invalid (mem : list Z) (end_ it : nat) (cps : list Z) :
  decodes mem end_ it cps ->
  forall fuel : nat, (length cps <= fuel)%nat ->
                     find_invalid fuel mem it end_ = Some end_.
Proof.
  induction 1 as [|it it' cp cps Hne V D IH]; intros fuel Hfuel.
  - destruct fuel; cbn [find_invalid]; now rewrite Nat.eqb_refl.
  - cbn [length] in Hfuel. destruct fuel as [|fuel]; [lia|].
    cbn [find_invalid]. rewrite (proj2 (Nat.eqb_neq it end_) Hne).
    rewrite validate_next_2_eq, V. cbn. apply IH. lia.
Qed.

Lemma is_valid_decodes (fuel : nat) (mem : list Z) (start end_ : nat) :
  (start <= end_)%nat ->
  is_valid fuel mem start end_ = Some true ->
  exists cps : list Z, decodes mem end_ start cps /\ (length cps <= fuel)%nat.
Proof.
  intros Hle Hv. unfold is_valid in Hv.
  destruct (find_invalid fuel mem start end_) as [p|] eqn:F; [|discriminate].
  cbn in Hv. injection Hv as Hp. apply Nat.eqb_eq in Hp. subst p.
  now apply find_invalid_decodes.
Qed.

Lemma app_eq_split (A : Type) (a b x y : list A) :
  length a = length b -> a ++ x = b ++ y -> a = b /\ x = y.
Proof.
  revert b. induction a as [|h a IH]; intros [|h' b] L E;
    try discriminate; cbn in *.
  - auto.
  - injection E as -> E. injection L as L.
    destruct (IH b L E) as [-> ->]. auto.
Qed.

(** The octets of a list of encodings decode to the code points encoded. *)
Lemma encoding_decodes (mem : list Z) (end_ : nat) (cps : list Z) :
  Forall decoded cps ->
  forall it : nat,
    (it <= end_)%nat ->
    octets_of mem it end_ = flat_map encoding cps ->
    decodes mem end_ it cps.
Proof.
  induction 1 as [|cp cps Hcp Hd IH]; intros it Hle He.
  - cbn [flat_map] in He.
    assert (it = end_) as ->.
    { pose proof (octets_of_length mem it end_) as L. rewrite He in L.
      cbn in L. lia. }
    constructor.
  - cbn [flat_map] in He.
    pose proof (octets_of_length mem it end_) as L. rewrite He in L.
    rewrite length_app in L.
    assert (Hpos : (0 < length (encoding cp))%nat).
    { pose proof (encoding_length cp). unfold minimal_length in *.
      revert H. decide_ltb; lia. }
    set (n := length (encoding cp)) in *.
    assert (V : validate_next mem it end_ 0 = (UTF8_OK, (it + n)%nat, cp)).
    { apply validate_next_encoding; [exact Hcp| |lia].
      intros k Hk. rewrite <- octets_of_nth with (b := end_) by lia.
      rewrite He. now apply app_nth1. }
    apply (decodes_next mem end_ it (it + n) cp cps); [lia|exact V|].
    apply IH; [lia|].
    rewrite (octets_of_split mem it (it + n) end_) in He by lia.
    apply app_eq_split in He; [apply He|].
    rewrite octets_of_length. lia.
Qed.

Lemma decodes_utf8to32 (mem : list Z) (end_ it : nat) (cps : list Z) :
  decodes mem end_ it cps ->
  forall (fuel : nat) (result : list Z),
    (length cps <= fuel)%nat ->
    utf8to32 fuel mem it end_ result = Some (Ok tt (result ++ cps)).
Proof.
  induction 1 as [|it it' cp cps Hne V D IH]; intros fuel result Hfuel.
  - rewrite app_nil_r. destruct fuel; cbn [utf8to32]; now rewrite Nat.eqb_refl.
  - cbn [length] in Hfuel. destruct fuel as [|fuel]; [lia|].
    cbn [utf8to32]. rewrite (proj2 (Nat.eqb_neq it end_) Hne).
    unfold next. rewrite V. rewrite IH by lia.
    now rewrite <- app_assoc.
Qed.

Lemma decodes_utf8to16 (mem : list Z) (end_ it : nat) (cps : list Z) :
  decodes mem end_ it cps ->
  forall (fuel : nat) (result : list Z),
    (length cps <= fuel)%nat ->
    utf8to16 fuel mem it end_ result
    = Some (Ok tt (result ++ flat_map utf16_units cps)).
Proof.
  induction 1 as [|it it' cp cps Hne V D IH]; intros fuel result Hfuel.
  - cbn [flat_map]. rewrite app_nil_r.
    destruct fuel; cbn [utf8to16]; now rewrite Nat.eqb_refl.
  - cbn [length] in Hfuel. destruct fuel as [|fuel]; [lia|].
    cbn [utf8to16]. rewrite (proj2 (Nat.eqb_neq it end_) Hne).
    unfold next. rewrite V. cbn [flat_map]. rewrite app_assoc.
    unfold utf16_units. destruct (0xffff <? cp); apply IH; lia.
Qed.

Lemma decodes_distance (mem : list Z) (end_ it : nat) (cps : list Z) :
  decodes mem end_ it cps ->
  forall (fuel : nat) (dist : Z),
    (length cps <= fuel)%nat ->
    distance_loop fuel mem it end_ dist
    = Some (Ok (dist + Z.of_nat (length cps)) tt).
Proof.
  induction 1 as [|it it' cp cps Hne V D IH]; intros fuel dist Hfuel.
  - cbn [length]. rewrite Z.add_0_r.
    destruct fuel; cbn [distance_loop]; now rewrite Nat.ltb_irrefl.
  - pose proof (decodes_facts _ _ _ _ D) as (Hle & _).
    pose proof (validate_next_moves mem it end_ 0) as P.
    rewrite V in P. cbn in P. destruct P as [_ P].
    cbn [length] in Hfuel. destruct fuel as [|fuel]; [lia|].
    cbn [distance_loop]. rewrite (proj2 (Nat.ltb_lt it end_)) by lia.
    unfold next. rewrite V. rewrite IH by lia.
    do 2 f_equal. cbn [length]. lia.
Qed.

Lemma decodes_advance (mem : list Z) (end_ it : nat) (cps : list Z) :
  decodes mem end_ it cps ->
  advance_loop (length cps) mem it end_ = Ok tt end_.
Proof.
  induction 1 as [|it it' cp cps Hne V D IH]; cbn [length advance_loop].
  - reflexivity.
  - unfold next. rewrite V. exact IH.
Qed.

Lemma decodes_replace_invalid (mem : list Z) (end_ it : nat) (cps : list Z) :
  decodes mem end_ it cps ->
  forall (fuel : nat) (out : list Z) (replacement : Z),
    (length cps <= fuel)%nat ->
    replace_invalid fuel mem it end_ out replacement
    = Some (Ok tt (out ++ range mem it end_)).
Proof.
  induction 1 as [|it it' cp cps Hne V D IH]; intros fuel out r Hfuel.
  - rewrite range_nil, app_nil_r.
    destruct fuel; cbn [replace_invalid]; now rewrite Nat.eqb_refl.
  - pose proof (decodes_facts _ _ _ _ D) as (Hle & _).
    pose proof (validate_next_moves mem it end_ 0) as P.
    rewrite V in P. cbn in P. destruct P as [_ P].
    cbn [length] in Hfuel. destruct fuel as [|fuel]; [lia|].
    cbn [replace_invalid]. rewrite (proj2 (Nat.eqb_neq it end_) Hne).
    rewrite validate_next_2_eq, V. cbn [fst snd].
    rewrite copy_octets_range. fold (range mem it it').
    rewrite IH by lia. rewrite <- app_assoc, <- range_split by lia.
    reflexivity.
Qed.

(** ** The unchecked decoder *)

Ltac strip_u32 :=
  repeat match goal with
    | |- context [u32 ?x] =>
        lazymatch x with
        | context [u32 _] => fail
        | _ => rewrite (u32_small x) by euclid
        end
    end.

Lemma unchecked_next_spec (mem : list Z) (it : nat) :
  unchecked.next mem it =
  match sequence_length mem it with
  | 2 => (payload_2 (octet mem it) (octet mem (S it)), S (S it))
  | 3 => (payload_3 (octet mem it) (octet mem (S it)) (octet mem (S (S it))),
          S (S (S it)))
  | 4 => (payload_4 (octet mem it) (octet mem (S it)) (octet mem (S (S it)))
            (octet mem (S (S (S it)))), S (S (S (S it))))
  | _ => (octet mem it, S it)
  end.
Proof.
  unfold unchecked.next.
  pose proof (octet_range mem it). pose proof (octet_range mem (S it)).
  pose proof (octet_range mem (S (S it))).
  pose proof (octet_range mem (S (S (S it)))).
  destruct (sequence_length_cases mem it) as [E|[E|[E|[E|E]]]];
    rewrite E; cbv beta iota zeta; fold (octet mem it);
    fold (octet mem (S it)); fold (octet mem (S (S it)));
    try reflexivity.
  - rewrite field_lead2 by apply octet_range. rewrite land_3f.
    fold (octet mem (S it)). rewrite u32_small by euclid. reflexivity.
  - rewrite field_lead3, field_trail6 by apply octet_range.
    rewrite land_3f. fold (octet mem (S (S it))).
    strip_u32. reflexivity.
  - rewrite field_lead4, field_trail12, field_trail6 by apply octet_range.
    rewrite land_3f. fold (octet mem (S (S (S it)))).
    strip_u32. reflexivity.
Qed.

Lemma unchecked_next_agrees (mem : list Z) (it end_ it' : nat) (c0 cp : Z) :
  validate_next mem it end_ c0 = (UTF8_OK, it', cp) ->
  unchecked.next mem it = (cp, it').
Proof.
  rewrite unchecked_next_spec.
  by_length mem it; split_ifs; intros V; inversion V; subst; reflexivity.
Qed.

(** ** Validation and sanitizing *)

(** X1. [find_invalid] answers with a position of the range; the octets
    before it are valid UTF-8 as a range of their own, and unless it is the
    end, the sequence that starts at it does not decode. *)
Theorem find_invalid_first_failure
  (fuel : nat) (mem : list Z) (start end_ p : nat) :
  (start <= end_)%nat ->
  find_invalid fuel mem start end_ = Some p ->
  (start <= p <= end_)%nat
  /\ is_valid fuel mem start p = Some true
  /\ (p = end_ \/ fst (validate_next_2 mem p end_) <> UTF8_OK).
Proof.
  intros Hle F.
  split; [now apply (find_invalid_bounds fuel mem start end_ p)|].
  unfold is_valid.
  enough (find_invalid fuel mem start p = Some p
          /\ (p = end_ \/ fst (validate_next_2 mem p end_) <> UTF8_OK))
    as [-> H]
    by (split; [cbn; now rewrite Nat.eqb_refl | exact H]).
  revert start Hle F.
  induction fuel as [|fuel IH]; intros start Hle; cbn [find_invalid].
  - destruct (Nat.eqb_spec start end_) as [->|]; [|discriminate].
    intros [= <-]. rewrite Nat.eqb_refl. auto.
  - destruct (Nat.eqb_spec start end_) as [->|Hne].
    { intros [= <-]. rewrite Nat.eqb_refl. auto. }
    rewrite validate_next_2_eq.
    destruct (validate_next mem start end_ 0) as [[err it'] cp] eqn:V.
    cbn [fst snd].
    assert (Hlt : (start < end_)%nat) by lia.
    destruct err; cbn [utf_error_eqb negb].
    { intros F.
      pose proof (validate_next_ok _ _ _ _ _ _ Hlt V) as (Hit & _).
      assert (Hle' : (it' <= end_)%nat) by lia.
      pose proof (find_invalid_bounds _ _ _ _ _ Hle' F) as Hb.
      destruct (IH it' Hle' F) as [IH1 IH2].
      split; [|exact IH2].
      rewrite (proj2 (Nat.eqb_neq start p)) by lia.
      rewrite validate_next_2_eq.
      rewrite (validate_next_ok_bound mem start end_ it' p 0 0 cp Hlt V)
        by lia.
      cbn. exact IH1. }
    all: pose proof (validate_next_failure_position _ _ _ _ _ _ _ V
                       ltac:(discriminate)) as ->.
    all: intros [= <-]; rewrite Nat.eqb_refl; split; [reflexivity|].
    all: right; rewrite validate_next_2_eq, V; cbn; discriminate.
Qed.

Lemma find_invalid_first_failure_sample :
  (0 <= 4)%nat
  /\ find_invalid 4 [0x41; 0xc3; 0xa9; 0xff] 0 4 = Some 3%nat
  /\ (0 <= 3 <= 4)%nat
  /\ is_valid 4 [0x41; 0xc3; 0xa9; 0xff] 0 3 = Some true
  /\ (3%nat = 4%nat
      \/ fst (validate_next_2 [0x41; 0xc3; 0xa9; 0xff] 3 4) <> UTF8_OK).
Proof.
  split; [lia|]. split; [reflexivity|].
  apply (find_invalid_first_failure 4 [0x41; 0xc3; 0xa9; 0xff] 0 4 3).
  - lia.
  - reflexivity.
Defined.

(** X2. On a range that [is_valid] accepts, [replace_invalid] writes the
    range as it is, whatever the replacement (an invalid one included: it is
    never encoded). *)
Theorem replace_invalid_keeps_valid_input
  (fuel : nat) (mem : list Z) (start end_ : nat) (out : list Z)
  (replacement : Z) :
  (start <= end_)%nat ->
  is_valid fuel mem start end_ = Some true ->
  replace_invalid fuel mem start end_ out replacement
  = Some (Ok tt (out ++ range mem start end_)).
Proof.
  intros Hle Hv.
  destruct (is_valid_decodes fuel mem start end_ Hle Hv) as (cps & D & Hn).
  now apply (decodes_replace_invalid mem end_ start cps D).
Qed.

Lemma replace_invalid_keeps_valid_sample :
  (0 <= 3)%nat
  /\ is_valid 3 [0xe2; 0x82; 0xac] 0 3 = Some true
  /\ replace_invalid 3 [0xe2; 0x82; 0xac] 0 3 [0x41] 0xd800
     = Some (Ok tt [0x41; 0xe2; 0x82; 0xac]).
Proof.
  split; [lia|]. split; [reflexivity|].
  apply (replace_invalid_keeps_valid_input 3 [0xe2; 0x82; 0xac] 0 3 [0x41]
           0xd800).
  - lia.
  - reflexivity.
Defined.

(** X3. When the first sequence that does not decode is a truncated one,
    [replace_invalid] throws [not_enough_room], whatever the replacement;
    the output then holds the well-formed units before it. *)
Theorem replace_invalid_truncated_input
  (fuel : nat) (mem : list Z) (start end_ p : nat) (out : list Z)
  (replacement : Z) :
  (start <= end_)%nat ->
  find_invalid fuel mem start end_ = Some p ->
  p <> end_ ->
  fst (validate_next_2 mem p end_) = NOT_ENOUGH_ROOM ->
  replace_invalid fuel mem start end_ out replacement
  = Some (Throw not_enough_room (out ++ range mem start p)).
Proof.
  intros Hle. revert start out Hle.
  induction fuel as [|fuel IH]; intros start out Hle;
    cbn [find_invalid replace_invalid].
  - destruct (Nat.eqb_spec start end_); [|discriminate].
    intros [= <-]. congruence.
  - destruct (Nat.eqb_spec start end_) as [->|Hne]; [intros [= <-]; congruence|].
    rewrite validate_next_2_eq.
    destruct (validate_next mem start end_ 0) as [[err it'] cp] eqn:V.
    cbn [fst snd]. destruct err; cbn [utf_error_eqb negb].
    { intros F Hp Hkind.
      assert (Hlt : (start < end_)%nat) by lia.
      pose proof (validate_next_ok _ _ _ _ _ _ Hlt V) as (Hit & _).
      assert (Hle' : (it' <= end_)%nat) by lia.
      pose proof (find_invalid_bounds _ _ _ _ _ Hle' F) as Hb.
      rewrite copy_octets_range. fold (range mem start it').
      rewrite (IH it' _ Hle' F Hp Hkind).
      rewrite <- app_assoc, <- range_split by lia. reflexivity. }
    all: pose proof (validate_next_failure_position _ _ _ _ _ _ _ V
                       ltac:(discriminate)) as ->.
    all: intros [= <-] _ Hkind.
    all: rewrite validate_next_2_eq, V in Hkind; cbn [fst] in Hkind.
    all: try discriminate Hkind.
    rewrite range_nil, app_nil_r. reflexivity.
Qed.

Lemma replace_invalid_truncated_sample :
  find_invalid 3 [0x41; 0xe2; 0x82] 0 3 = Some 1%nat
  /\ replace_invalid 3 [0x41; 0xe2; 0x82] 0 3 [] 0xfffd
     = Some (Throw not_enough_room [0x41]).
Proof.
  split; [reflexivity|].
  apply (replace_invalid_truncated_input 3 [0x41; 0xe2; 0x82] 0 3 1 [] 0xfffd).
  - lia.
  - reflexivity.
  - lia.
  - reflexivity.
Defined.

Lemma octets_of_range (mem : list Z) (a b : nat) :
  octets_of mem a b = map mask8 (range mem a b).
Proof. unfold octets_of, range. now rewrite map_map. Qed.

Lemma octets_of_app (pre l : list Z) :
  octets_of (pre ++ l) (length pre) (length pre + length l) = map mask8 l.
Proof. now rewrite octets_of_range, range_app. Qed.

Lemma map_mask8_octets (l : list Z) :
  Forall (fun o => 0 <= o < 256) l -> map mask8 l = l.
Proof.
  induction 1 as [|o l Ho _ IH]; cbn [map]; [reflexivity|].
  now rewrite IH, mask8_octet.
Qed.

Lemma encoding_all_octets (cp : Z) :
  decoded cp -> Forall (fun o => 0 <= o < 256) (encoding cp).
Proof.
  intros Hcp. apply Forall_forall. intros o Ho.
  destruct (In_nth _ _ 0 Ho) as (k & Hk & <-).
  now apply encoding_octets.
Qed.

Lemma encodings_all_octets (cps : list Z) :
  Forall decoded cps ->
  Forall (fun o => 0 <= o < 256) (flat_map encoding cps).
Proof.
  induction 1 as [|cp cps Hcp _ IH]; cbn [flat_map]; [constructor|].
  apply Forall_app. split; [now apply encoding_all_octets|exact IH].
Qed.

Lemma encoding_nonempty (cps : list Z) :
  (length cps <= length (flat_map encoding cps))%nat.
Proof.
  induction cps as [|cp cps IH]; cbn [flat_map length]; [lia|].
  rewrite length_app. pose proof (encoding_length cp) as L.
  unfold minimal_length in L. revert L. decide_ltb; lia.
Qed.

(** What a successful [replace_invalid] has added to the output: octets
    that spell the encodings of a list of code points. *)
Lemma replace_invalid_appends (mem : list Z) (end_ : nat) (replacement : Z) :
  decoded replacement ->
  forall (fuel start : nat) (out out' : list Z),
    (start <= end_)%nat ->
    replace_invalid fuel mem start end_ out replacement = Some (Ok tt out') ->
    exists (l cps : list Z),
      out' = out ++ l
      /\ Forall decoded cps
      /\ map mask8 l = flat_map encoding cps.
Proof.
  intros Hr. destruct Hr as [Hr0 Hrv].
  assert (Hmask : map mask8 (encoding replacement) = encoding replacement).
  { apply map_mask8_octets, encoding_all_octets. now split. }
  induction fuel as [|fuel IH]; intros start out out' Hle;
    cbn [replace_invalid].
  - destruct (Nat.eqb_spec start end_); [|discriminate].
    intros [= <-]. exists [], []. rewrite app_nil_r. auto.
  - destruct (Nat.eqb_spec start end_) as [->|Hne].
    { intros [= <-]. exists [], []. rewrite app_nil_r. auto. }
    assert (Hlt : (start < end_)%nat) by lia.
    rewrite validate_next_2_eq.
    destruct (validate_next mem start end_ 0) as [[err it'] cp] eqn:V.
    cbn [fst snd]. destruct err.
    { pose proof (validate_next_ok _ _ _ _ _ _ Hlt V) as (Hit & H0 & Hv & He).
      rewrite copy_octets_range. fold (range mem start it').
      intros R. assert (Hle' : (it' <= end_)%nat) by lia.
      destruct (IH it' _ out' Hle' R) as (l & cps & -> & Hd & Hm).
      exists (range mem start it' ++ l), (cp :: cps).
      split; [now rewrite app_assoc|].
      split; [constructor; [now split|exact Hd]|].
      rewrite map_app, Hm, <- octets_of_range, <- He. reflexivity. }
    { discriminate. }
    all: pose proof (validate_next_failure_position _ _ _ _ _ _ _ V
                       ltac:(discriminate)) as ->.
    all: rewrite append_encoding by assumption.
    all: try (pose proof (skip_trail_stops mem (S start) end_ Hlt)
                as (Hq & _)).
    all: intros R.
    all: match type of R with
         | replace_invalid _ _ ?s _ _ _ = _ =>
             assert (Hle' : (s <= end_)%nat) by lia;
             destruct (IH s _ out' Hle' R) as (l & cps & -> & Hd & Hm)
         end.
    all: exists (encoding replacement ++ l), (replacement :: cps).
    all: split; [now rewrite app_assoc|].
    all: split; [constructor; [now split|exact Hd]|].
    all: rewrite map_app, Hm, Hmask; reflexivity.
Qed.

(** X4. With a valid replacement, whatever [replace_invalid] has written
    when it returns is valid UTF-8: [is_valid] accepts the octets added to
    the output. *)
Theorem replace_invalid_output_is_valid
  (fuel : nat) (mem : list Z) (start end_ : nat) (out out' : list Z)
  (replacement : Z) :
  0 <= replacement ->
  is_code_point_valid replacement = true ->
  (start <= end_)%nat ->
  replace_invalid fuel mem start end_ out replacement = Some (Ok tt out') ->
  is_valid (length out') out' (length out) (length out') = Some true.
Proof.
  intros H0 Hv Hle R.
  destruct (replace_invalid_appends mem end_ replacement (conj H0 Hv)
              fuel start out out' Hle R) as (l & cps & -> & Hd & Hm).
  assert (D : decodes (out ++ l) (length out + length l) (length out) cps).
  { apply encoding_decodes; [exact Hd|lia|].
    rewrite octets_of_app. exact Hm. }
  unfold is_valid. rewrite length_app.
  rewrite (decodes_find_invalid _ _ _ _ D).
  - cbn. now rewrite Nat.eqb_refl.
  - pose proof (encoding_nonempty cps) as L. rewrite <- Hm in L.
    rewrite length_map in L. lia.
Qed.

Lemma replace_invalid_output_sample :
  replace_invalid 5 [0x41; 0xc0; 0x80; 0xff; 0x42] 0 5 [] 0xfffd
  = Some (Ok tt [0x41; 0xef; 0xbf; 0xbd; 0xef; 0xbf; 0xbd; 0x42])
  /\ is_valid 8 [0x41; 0xef; 0xbf; 0xbd; 0xef; 0xbf; 0xbd; 0x42] 0 8
     = Some true.
Proof.
  split; [reflexivity|].
  apply (replace_invalid_output_is_valid 5 [0x41; 0xc0; 0x80; 0xff; 0x42] 0 5
           [] [0x41; 0xef; 0xbf; 0xbd; 0xef; 0xbf; 0xbd; 0x42] 0xfffd).
  - lia.
  - reflexivity.
  - lia.
  - reflexivity.
Defined.

(** X5. With a valid replacement the only exception that leaves
    [replace_invalid] is [not_enough_room]. *)
Theorem replace_invalid_throws_not_enough_room_only
  (fuel : nat) (mem : list Z) (start end_ : nat) (out out' : list Z)
  (replacement : Z) (e : exception) :
  0 <= replacement ->
  is_code_point_valid replacement = true ->
  replace_invalid fuel mem start end_ out replacement = Some (Throw e out') ->
  e = not_enough_room.
Proof.
  intros H0 Hv. revert start out.
  induction fuel as [|fuel IH]; intros start out; cbn [replace_invalid].
  - destruct (start =? end_)%nat; discriminate.
  - destruct (start =? end_)%nat; [discriminate|].
    destruct (validate_next_2 mem start end_) as [err it'].
    destruct err; rewrite ?append_encoding by assumption;
      try apply IH.
    intros [= <- _]. reflexivity.
Qed.

Lemma replace_invalid_throws_sample :
  replace_invalid 2 [0x41; 0xc3] 0 2 [] 0xfffd
  = Some (Throw not_enough_room [0x41])
  /\ not_enough_room = not_enough_room.
Proof.
  split; [reflexivity|].
  apply (replace_invalid_throws_not_enough_room_only 2 [0x41; 0xc3] 0 2 []
           [0x41] 0xfffd not_enough_room).
  - lia.
  - reflexivity.
  - reflexivity.
Defined.

(** ** UTF-32 *)

Lemma u32_decoded (cp : Z) : decoded cp -> u32 cp = cp.
Proof.
  intros [H0 Hv]. pose proof (valid_range cp Hv) as [Hmax _].
  apply u32_small. lia.
Qed.

(** [utf32to8] over a run of valid code points. *)
Lemma utf32to8_run (good : list Z) :
  Forall decoded good ->
  forall (fuel : nat) (pre rest result : list Z) (end_ : nat),
    (length pre + length good <= end_)%nat ->
    utf32to8 (length good + fuel) (pre ++ good ++ rest) (length pre) end_
      result
    = utf32to8 fuel (pre ++ good ++ rest) (length pre + length good) end_
        (result ++ flat_map encoding good).
Proof.
  induction 1 as [|cp cps Hcp _ IH]; intros fuel pre rest result end_ Hend.
  - cbn [length flat_map Nat.add]. now rewrite Nat.add_0_r, app_nil_r.
  - cbn [length] in Hend. cbn [length Nat.add utf32to8].
    rewrite eqb_false_lt by lia.
    pose proof (deref_app pre ((cp :: cps) ++ rest) 0) as Dr.
    cbn [Nat.add app nth] in Dr. cbn [app]. rewrite Dr.
    rewrite u32_decoded by exact Hcp.
    destruct Hcp as [H0 Hv]. rewrite append_encoding by assumption.
    replace (pre ++ cp :: cps ++ rest) with ((pre ++ [cp]) ++ cps ++ rest)
      by (now rewrite <- app_assoc).
    replace (S (length pre)) with (length (pre ++ [cp]))
      by (rewrite length_app; cbn; lia).
    rewrite IH by (rewrite length_app; cbn; lia).
    cbn [flat_map length]. rewrite length_app. cbn [length].
    rewrite <- (app_assoc result). f_equal. lia.
Qed.

(** X6. [utf32to8] on valid code points writes their encodings one after
    the other, and [utf8to32] on these octets gives the code points back. *)
Theorem utf32to8_utf8to32_round_trip (cps : list Z) (fuel fuel' : nat) :
  Forall (fun cp => 0 <= cp /\ is_code_point_valid cp = true) cps ->
  (length cps <= fuel)%nat ->
  (length (flat_map encoding cps) <= fuel')%nat ->
  utf32to8 fuel cps 0 (length cps) [] = Some (Ok tt (flat_map encoding cps))
  /\ utf8to32 fuel' (flat_map encoding cps) 0
       (length (flat_map encoding cps)) []
     = Some (Ok tt cps).
Proof.
  intros Hd Hfuel Hfuel'. split.
  - pose proof (utf32to8_run cps Hd (fuel - length cps) [] [] []
                  (length cps) ltac:(cbn; lia)) as R.
    cbn [app length Nat.add] in R. rewrite app_nil_r in R.
    replace (length cps + (fuel - length cps))%nat with fuel in R by lia.
    rewrite R. destruct (fuel - length cps)%nat; cbn [utf32to8];
      now rewrite Nat.eqb_refl.
  - set (bytes := flat_map encoding cps) in *.
    assert (D : decodes bytes (length bytes) 0 cps).
    { apply encoding_decodes; [exact Hd|lia|].
      pose proof (octets_of_app [] bytes) as O. cbn [app length Nat.add] in O.
      rewrite O. apply map_mask8_octets, encodings_all_octets, Hd. }
    pose proof (encoding_nonempty cps) as L. fold bytes in L.
    now rewrite (decodes_utf8to32 _ _ _ _ D) by lia.
Qed.

Lemma utf32_round_trip_sample :
  utf32to8 3 [0x41; 0x20ac; 0x1f600] 0 3 []
  = Some (Ok tt [0x41; 0xe2; 0x82; 0xac; 0xf0; 0x9f; 0x98; 0x80])
  /\ utf8to32 8 [0x41; 0xe2; 0x82; 0xac; 0xf0; 0x9f; 0x98; 0x80] 0 8 []
     = Some (Ok tt [0x41; 0x20ac; 0x1f600]).
Proof.
  apply (utf32to8_utf8to32_round_trip [0x41; 0x20ac; 0x1f600] 3 8).
  - repeat constructor; lia.
  - cbn; lia.
  - cbn; lia.
Defined.

(** X7. [utf32to8] stops at the first element that is no valid code point:
    it throws [invalid_code_point] with that value, and the output holds the
    encodings of the code points before it. *)
Theorem utf32to8_first_invalid
  (good rest result : list Z) (bad : Z) (fuel end_ : nat) :
  Forall (fun cp => 0 <= cp /\ is_code_point_valid cp = true) good ->
  is_code_point_valid (u32 bad) = false ->
  (length good < end_)%nat ->
  (length good < fuel)%nat ->
  utf32to8 fuel (good ++ bad :: rest) 0 end_ result
  = Some (Throw (invalid_code_point (u32 bad))
            (result ++ flat_map encoding good)).
Proof.
  intros Hd Hbad Hend Hfuel.
  pose proof (utf32to8_run good Hd (fuel - length good) [] (bad :: rest)
                result end_ ltac:(cbn; lia)) as R.
  cbn [app length Nat.add] in R.
  replace (length good + (fuel - length good))%nat with fuel in R by lia.
  rewrite R.
  destruct (fuel - length good)%nat as [|f] eqn:Ef; [lia|].
  cbn [utf32to8]. rewrite eqb_false_lt by lia.
  pose proof (deref_app good (bad :: rest) 0) as Dr.
  cbn [Nat.add nth] in Dr. rewrite Dr.
  unfold append. rewrite Hbad. reflexivity.
Qed.

Lemma utf32to8_first_invalid_sample :
  utf32to8 3 ([0x41; 0x20ac] ++ 0xd800 :: [0x42]) 0 4 []
  = Some (Throw (invalid_code_point (u32 0xd800))
            ([] ++ flat_map encoding [0x41; 0x20ac])).
Proof.
  apply (utf32to8_first_invalid [0x41; 0x20ac] [0x42] [] 0xd800 3 4).
  - repeat constructor; lia.
  - reflexivity.
  - cbn; lia.
  - cbn; lia.
Defined.

(** X8. For a well-formed UTF-8 buffer of octets, [utf8to32] followed by
    [utf32to8] writes the buffer again. *)
Theorem utf8to32_utf32to8_round_trip (fuel : nat) (mem : list Z) :
  Forall (fun o => 0 <= o < 256) mem ->
  is_valid fuel mem 0 (length mem) = Some true ->
  exists cps : list Z,
    utf8to32 fuel mem 0 (length mem) [] = Some (Ok tt cps)
    /\ (length cps <= length mem)%nat
    /\ forall fuel' : nat,
        (length cps <= fuel')%nat ->
        utf32to8 fuel' cps 0 (length cps) [] = Some (Ok tt mem).
Proof.
  intros Hoct Hvalid.
  destruct (is_valid_decodes fuel mem 0 (length mem) ltac:(lia) Hvalid)
    as (cps & D & Hn).
  pose proof (decodes_facts _ _ _ _ D) as (_ & Hd & He & Hlen).
  rewrite octets_of_octets, range_all in He by exact Hoct.
  exists cps. split; [now rewrite (decodes_utf8to32 _ _ _ _ D)|].
  split; [lia|].
  intros fuel' Hfuel'.
  pose proof (utf32to8_run cps Hd (fuel' - length cps) [] [] []
                (length cps) ltac:(cbn; lia)) as R.
  cbn [app length Nat.add] in R. rewrite app_nil_r in R.
  replace (length cps + (fuel' - length cps))%nat with fuel' in R by lia.
  rewrite R, He. destruct (fuel' - length cps)%nat; cbn [utf32to8];
    now rewrite Nat.eqb_refl.
Qed.

Lemma utf8to32_round_trip_sample :
  Forall (fun o => 0 <= o < 256) [0x41; 0xe2; 0x82; 0xac]
  /\ is_valid 4 [0x41; 0xe2; 0x82; 0xac] 0 4 = Some true
  /\ exists cps : list Z,
      utf8to32 4 [0x41; 0xe2; 0x82; 0xac] 0 4 [] = Some (Ok tt cps)
      /\ (length cps <= 4)%nat
      /\ forall fuel' : nat,
          (length cps <= fuel')%nat ->
          utf32to8 fuel' cps 0 (length cps) []
          = Some (Ok tt [0x41; 0xe2; 0x82; 0xac]).
Proof.
  assert (O : Forall (fun o => 0 <= o < 256) [0x41; 0xe2; 0x82; 0xac])
    by (repeat constructor; lia).
  split; [exact O|]. split; [reflexivity|].
  exact (utf8to32_utf32to8_round_trip 4 [0x41; 0xe2; 0x82; 0xac] O eq_refl).
Defined.

(** ** UTF-16 to UTF-8 and back *)

Lemma mask16_range (x : Z) : 0 <= u32 (mask16 x) < 65536 /\ u32 (mask16 x) = mask16 x.
Proof.
  rewrite mask16_mod. pose proof (Z.mod_pos_bound x 65536 ltac:(lia)).
  rewrite u32_small by lia. split; [lia|reflexivity].
Qed.

Lemma single_unit_valid (c : Z) :
  0 <= c < 65536 ->
  is_lead_surrogate c = false ->
  is_trail_surrogate c = false ->
  decoded c /\ utf16_units c = [c].
Proof.
  unfold is_lead_surrogate, is_trail_surrogate, LEAD_SURROGATE_MIN,
    LEAD_SURROGATE_MAX, TRAIL_SURROGATE_MIN, TRAIL_SURROGATE_MAX.
  intros Hc HL HT.
  apply andb_false_iff in HL, HT.
  assert (c < 0xd800 \/ 0xdfff < c).
  { destruct HL as [HL|HL], HT as [HT|HT];
      apply Z.leb_gt in HL; apply Z.leb_gt in HT; lia. }
  split.
  - split; [lia|]. apply valid_intro; lia.
  - unfold utf16_units. destruct (Z.ltb_spec 0xffff c); [lia|].
    unfold u16. change (2 ^ 16) with 65536. now rewrite Z.mod_small by lia.
Qed.

Lemma surrogate_pair_valid (lead trail : Z) :
  is_lead_surrogate lead = true ->
  is_trail_surrogate trail = true ->
  decoded (from_surrogates lead trail)
  /\ utf16_units (from_surrogates lead trail) = [lead; trail].
Proof.
  unfold is_lead_surrogate, is_trail_surrogate, LEAD_SURROGATE_MIN,
    LEAD_SURROGATE_MAX, TRAIL_SURROGATE_MIN, TRAIL_SURROGATE_MAX.
  intros HL HT. apply andb_prop in HL, HT.
  destruct HL as [L1 L2], HT as [T1 T2].
  apply Z.leb_le in L1, L2, T1, T2.
  assert (E : from_surrogates lead trail
              = 0x10000 + (lead - 0xd800) * 1024 + (trail - 0xdc00)).
  { unfold from_surrogates. change SURROGATE_OFFSET with 0xfca02400.
    rewrite Z.shiftl_mul_pow2 by lia. change (2 ^ 10) with 1024.
    rewrite (u32_small (lead * 1024)) by lia.
    rewrite (u32_small (lead * 1024 + trail)) by lia.
    unfold u32. change (2 ^ 32) with 4294967296. euclid. }
  set (cp := from_surrogates lead trail) in *.
  assert (R : 0xffff < cp <= 0x10ffff) by lia.
  split.
  - split; [lia|]. apply valid_intro; lia.
  - pose proof (surrogate_pair cp R) as S. cbv zeta in S.
    destruct S as (S1 & S2 & _ & S4).
    unfold utf16_units. rewrite (proj2 (Z.ltb_lt _ _) (proj1 R)).
    set (l := u16 (u32 (Z.shiftr cp 10 + LEAD_OFFSET))) in *.
    set (t := u16 (u32 (Z.land cp 0x3ff + TRAIL_SURROGATE_MIN))) in *.
    rewrite Z.shiftl_mul_pow2 in S4 by lia. change (2 ^ 10) with 1024 in S4.
    assert (l = lead /\ t = trail) as [-> ->] by lia. reflexivity.
Qed.

Lemma range_cons (mem : list Z) (a b : nat) :
  (a < b)%nat -> range mem a b = deref mem a :: range mem (S a) b.
Proof.
  intros H. unfold range.
  replace (b - a)%nat with (S (b - S a)) by lia. reflexivity.
Qed.

(** What a successful [utf16to8] has read and written. *)
Lemma utf16to8_inverse (mem : list Z) (end_ : nat) (fuel : nat) :
  forall (start : nat) (result out : list Z),
    (start <= end_)%nat ->
    utf16to8 fuel mem start end_ result = Some (Ok tt out) ->
    exists cps : list Z,
      Forall decoded cps
      /\ out = result ++ flat_map encoding cps
      /\ flat_map utf16_units cps = map mask16 (range mem start end_).
Proof.
  induction fuel as [|fuel IH]; intros start result out Hle;
    cbn [utf16to8].
  - destruct (Nat.eqb_spec start end_) as [->|]; [|discriminate].
    intros [= <-]. exists []. rewrite range_nil, app_nil_r. auto.
  - destruct (Nat.eqb_spec start end_) as [->|Hne].
    { intros [= <-]. exists []. rewrite range_nil, app_nil_r. auto. }
    destruct (mask16_range (deref mem start)) as [Rc Ec].
    destruct (mask16_range (deref mem (S start))) as [Rt Et].
    destruct (is_lead_surrogate (u32 (mask16 (deref mem start)))) eqn:HL.
    + destruct (Nat.eqb_spec (S start) end_) as [|Hne']; cbn [negb];
        [discriminate|].
      destruct (is_trail_surrogate (u32 (mask16 (deref mem (S start)))))
        eqn:HT; [|discriminate].
      fold (from_surrogates (u32 (mask16 (deref mem start)))
              (u32 (mask16 (deref mem (S start))))).
      destruct (surrogate_pair_valid _ _ HL HT) as [[H0 Hv] Hu].
      rewrite append_encoding by assumption. intros R.
      destruct (IH (S (S start)) _ out ltac:(lia) R) as (cps & Hd & -> & Hm).
      eexists (_ :: cps). split; [constructor; [split; eassumption|exact Hd]|].
      split; [cbn [flat_map]; now rewrite app_assoc|].
      cbn [flat_map]. rewrite Hu, Hm, Ec, Et.
      rewrite (range_cons mem start end_), (range_cons mem (S start) end_)
        by lia. reflexivity.
    + destruct (is_trail_surrogate (u32 (mask16 (deref mem start)))) eqn:HT;
        [discriminate|].
      destruct (single_unit_valid _ Rc HL HT) as [[H0 Hv] Hu].
      rewrite append_encoding by assumption. intros R.
      destruct (IH (S start) _ out ltac:(lia) R) as (cps & Hd & -> & Hm).
      eexists (_ :: cps). split; [constructor; [split; eassumption|exact Hd]|].
      split; [cbn [flat_map]; now rewrite app_assoc|].
      cbn [flat_map]. rewrite Hu, Hm, Ec.
      rewrite (range_cons mem start end_) by lia. reflexivity.
Qed.

(** X9. Whenever [utf16to8] succeeds on a buffer of 16-bit units,
    [utf8to16] on the octets it wrote succeeds and writes the buffer
    again. *)
Theorem utf16to8_utf8to16_round_trip
  (fuel : nat) (mem bytes : list Z) :
  Forall (fun u => 0 <= u < 65536) mem ->
  utf16to8 fuel mem 0 (length mem) [] = Some (Ok tt bytes) ->
  forall fuel' : nat,
    (length bytes <= fuel')%nat ->
    utf8to16 fuel' bytes 0 (length bytes) [] = Some (Ok tt mem).
Proof.
  intros Hu R fuel' Hfuel'.
  destruct (utf16to8_inverse mem (length mem) fuel 0 [] bytes ltac:(lia) R)
    as (cps & Hd & Hb & Hm).
  cbn [app] in Hb. subst bytes.
  rewrite range_all in Hm.
  assert (M : map mask16 mem = mem).
  { clear -Hu. induction Hu as [|u l H _ IH]; cbn [map]; [reflexivity|].
    rewrite IH, mask16_mod, Z.mod_small by lia. reflexivity. }
  rewrite M in Hm.
  set (bytes := flat_map encoding cps) in *.
  assert (D : decodes bytes (length bytes) 0 cps).
  { apply encoding_decodes; [exact Hd|lia|].
    pose proof (octets_of_app [] bytes) as O. cbn [app length Nat.add] in O.
    rewrite O. apply map_mask8_octets, encodings_all_octets, Hd. }
  pose proof (encoding_nonempty cps) as L. fold bytes in L.
  rewrite (decodes_utf8to16 _ _ _ _ D) by lia.
  cbn [app]. now rewrite Hm.
Qed.

Lemma utf16_round_trip_sample :
  Forall (fun u => 0 <= u < 65536) [0x61; 0x20ac; 0xd83d; 0xde00]
  /\ utf16to8 4 [0x61; 0x20ac; 0xd83d; 0xde00] 0 4 []
     = Some (Ok tt [0x61; 0xe2; 0x82; 0xac; 0xf0; 0x9f; 0x98; 0x80])
  /\ utf8to16 8 [0x61; 0xe2; 0x82; 0xac; 0xf0; 0x9f; 0x98; 0x80] 0 8 []
     = Some (Ok tt [0x61; 0x20ac; 0xd83d; 0xde00]).
Proof.
  assert (O : Forall (fun u => 0 <= u < 65536) [0x61; 0x20ac; 0xd83d; 0xde00])
    by (repeat constructor; lia).
  split; [exact O|]. split; [reflexivity|].
  apply (utf16to8_utf8to16_round_trip 4 [0x61; 0x20ac; 0xd83d; 0xde00]
           [0x61; 0xe2; 0x82; 0xac; 0xf0; 0x9f; 0x98; 0x80] O eq_refl 8).
  cbn. lia.
Defined.

(** X10. The only exception that leaves [utf16to8] is [invalid_utf16]: the
    code point it hands to [append] is always valid. *)
Theorem utf16to8_throws_invalid_utf16_only
  (fuel : nat) (mem : list Z) (start end_ : nat) (result out : list Z)
  (e : exception) :
  utf16to8 fuel mem start end_ result = Some (Throw e out) ->
  exists u : Z, e = invalid_utf16 u.
Proof.
  revert start result.
  induction fuel as [|fuel IH]; intros start result; cbn [utf16to8].
  - destruct (start =? end_)%nat; discriminate.
  - destruct (start =? end_)%nat; [discriminate|].
    destruct (mask16_range (deref mem start)) as [Rc Ec].
    destruct (is_lead_surrogate (u32 (mask16 (deref mem start)))) eqn:HL.
    + destruct (negb (S start =? end_)%nat);
        [|intros [= <- _]; eauto].
      destruct (is_trail_surrogate (u32 (mask16 (deref mem (S start)))))
        eqn:HT; [|intros [= <- _]; eauto].
      fold (from_surrogates (u32 (mask16 (deref mem start)))
              (u32 (mask16 (deref mem (S start))))).
      destruct (surrogate_pair_valid _ _ HL HT) as [[H0 Hv] _].
      rewrite append_encoding by assumption. apply IH.
    + destruct (is_trail_surrogate (u32 (mask16 (deref mem start)))) eqn:HT;
        [intros [= <- _]; eauto|].
      destruct (single_unit_valid _ Rc HL HT) as [[H0 Hv] _].
      rewrite append_encoding by assumption. apply IH.
Qed.

Lemma utf16to8_throws_sample :
  utf16to8 2 [0x41; 0xdc00] 0 2 [] = Some (Throw (invalid_utf16 0xdc00) [0x41])
  /\ exists u : Z, invalid_utf16 0xdc00 = invalid_utf16 u.
Proof.
  split; [reflexivity|].
  apply (utf16to8_throws_invalid_utf16_only 2 [0x41; 0xdc00] 0 2 [] [0x41]).
  reflexivity.
Defined.

(** ** The unchecked variants agree with the checked ones *)

(** X11. Where the checked [next] succeeds, [unchecked::next] returns the
    same code point and the same position. *)
Theorem unchecked_next_agrees_with_next
  (mem : list Z) (it end_ it' : nat) (cp : Z) :
  next mem it end_ = Ok cp it' ->
  unchecked.next mem it = (cp, it').
Proof.
  unfold next.
  destruct (validate_next mem it end_ 0) as [[err i] c] eqn:V.
  destruct err; try discriminate.
  intros [= <- <-]. now apply (unchecked_next_agrees mem it end_ i 0 c).
Qed.

Lemma unchecked_next_sample :
  next [0xf0; 0x9f; 0x98; 0x80] 0 4 = Ok 0x1f600 4%nat
  /\ unchecked.next [0xf0; 0x9f; 0x98; 0x80] 0 = (0x1f600, 4%nat).
Proof.
  split; [reflexivity|].
  apply (unchecked_next_agrees_with_next [0xf0; 0x9f; 0x98; 0x80] 0 4 4).
  reflexivity.
Defined.

Lemma decodes_unchecked_utf8to16 (mem : list Z) (end_ it : nat) (cps : list Z) :
  decodes mem end_ it cps ->
  forall (fuel : nat) (result : list Z),
    (length cps <= fuel)%nat ->
    unchecked.utf8to16 fuel mem it end_ result
    = Some (result ++ flat_map utf16_units cps).
Proof.
  induction 1 as [|it it' cp cps Hne V D IH]; intros fuel result Hfuel.
  - cbn [flat_map]. rewrite app_nil_r.
    destruct fuel; cbn [unchecked.utf8to16]; now rewrite Nat.ltb_irrefl.
  - pose proof (decodes_facts _ _ _ _ D) as (Hle & _).
    pose proof (validate_next_moves mem it end_ 0) as P.
    rewrite V in P. cbn in P. destruct P as [_ P].
    cbn [length] in Hfuel. destruct fuel as [|fuel]; [lia|].
    cbn [unchecked.utf8to16]. rewrite (proj2 (Nat.ltb_lt it end_)) by lia.
    rewrite (unchecked_next_agrees _ _ _ _ _ _ V).
    cbn [flat_map]. rewrite app_assoc.
    unfold utf16_units. destruct (0xffff <? cp); apply IH; lia.
Qed.

Lemma decodes_unchecked_utf8to32 (mem : list Z) (end_ it : nat) (cps : list Z) :
  decodes mem end_ it cps ->
  forall (fuel : nat) (result : list Z),
    (length cps <= fuel)%nat ->
    unchecked.utf8to32 fuel mem it end_ result = Some (result ++ cps).
Proof.
  induction 1 as [|it it' cp cps Hne V D IH]; intros fuel result Hfuel.
  - rewrite app_nil_r.
    destruct fuel; cbn [unchecked.utf8to32]; now rewrite Nat.ltb_irrefl.
  - pose proof (decodes_facts _ _ _ _ D) as (Hle & _).
    pose proof (validate_next_moves mem it end_ 0) as P.
    rewrite V in P. cbn in P. destruct P as [_ P].
    cbn [length] in Hfuel. destruct fuel as [|fuel]; [lia|].
    cbn [unchecked.utf8to32]. rewrite (proj2 (Nat.ltb_lt it end_)) by lia.
    rewrite (unchecked_next_agrees _ _ _ _ _ _ V).
    rewrite IH by lia. now rewrite <- app_assoc.
Qed.

(** X12. On a range that [is_valid] accepts, the unchecked [utf8to16] and
    [utf8to32] write what the checked ones write. *)
Theorem unchecked_decoders_agree_on_valid_input
  (fuel : nat) (mem : list Z) (start end_ : nat) (result : list Z) :
  (start <= end_)%nat ->
  is_valid fuel mem start end_ = Some true ->
  exists (w16 w32 : list Z),
    utf8to16 fuel mem start end_ result = Some (Ok tt w16)
    /\ unchecked.utf8to16 fuel mem start end_ result = Some w16
    /\ utf8to32 fuel mem start end_ result = Some (Ok tt w32)
    /\ unchecked.utf8to32 fuel mem start end_ result = Some w32.
Proof.
  intros Hle Hv.
  destruct (is_valid_decodes fuel mem start end_ Hle Hv) as (cps & D & Hn).
  exists (result ++ flat_map utf16_units cps), (result ++ cps).
  rewrite (decodes_utf8to16 _ _ _ _ D), (decodes_unchecked_utf8to16 _ _ _ _ D),
    (decodes_utf8to32 _ _ _ _ D), (decodes_unchecked_utf8to32 _ _ _ _ D)
    by exact Hn.
  auto.
Qed.

Lemma unchecked_decoders_sample :
  (0 <= 5)%nat
  /\ is_valid 5 [0x41; 0xf0; 0x9f; 0x98; 0x80] 0 5 = Some true
  /\ exists (w16 w32 : list Z),
      utf8to16 5 [0x41; 0xf0; 0x9f; 0x98; 0x80] 0 5 [] = Some (Ok tt w16)
      /\ unchecked.utf8to16 5 [0x41; 0xf0; 0x9f; 0x98; 0x80] 0 5 [] = Some w16
      /\ utf8to32 5 [0x41; 0xf0; 0x9f; 0x98; 0x80] 0 5 [] = Some (Ok tt w32)
      /\ unchecked.utf8to32 5 [0x41; 0xf0; 0x9f; 0x98; 0x80] 0 5 [] = Some w32.
Proof.
  split; [lia|]. split; [reflexivity|].
  apply (unchecked_decoders_agree_on_valid_input 5
           [0x41; 0xf0; 0x9f; 0x98; 0x80] 0 5 []).
  - lia.
  - reflexivity.
Defined.

Lemma unchecked_append_agrees (cp : Z) (result out : list Z) :
  append cp result = Ok tt out -> unchecked.append cp result = out.
Proof.
  unfold append, unchecked.append.
  destruct (negb (is_code_point_valid cp)); [discriminate|].
  destruct (cp <? 0x80); [now intros [= <-]|].
  destruct (cp <? 0x800); [now intros [= <-]|].
  destruct (cp <? 0x10000); now intros [= <-].
Qed.

(** X13. Whenever the checked [utf16to8] succeeds, the unchecked one writes
    the same octets. *)
Theorem unchecked_utf16to8_agrees_on_success
  (fuel : nat) (mem : list Z) (start end_ : nat) (result out : list Z) :
  utf16to8 fuel mem start end_ result = Some (Ok tt out) ->
  unchecked.utf16to8 fuel mem start end_ result = Some out.
Proof.
  revert start result.
  induction fuel as [|fuel IH]; intros start result;
    cbn [utf16to8 unchecked.utf16to8].
  - destruct (start =? end_)%nat; [now intros [= <-]|discriminate].
  - destruct (start =? end_)%nat; [now intros [= <-]|].
    destruct (is_lead_surrogate _).
    + destruct (negb (S start =? end_)%nat); [|discriminate].
      destruct (is_trail_surrogate _); [|discriminate].
      destruct (append _ result) as [[] r|] eqn:A; [|discriminate].
      rewrite (unchecked_append_agrees _ _ _ A). apply IH.
    + destruct (is_trail_surrogate _); [discriminate|].
      destruct (append _ result) as [[] r|] eqn:A; [|discriminate].
      rewrite (unchecked_append_agrees _ _ _ A). apply IH.
Qed.

Lemma unchecked_utf16to8_sample :
  utf16to8 3 [0x61; 0xd83d; 0xde00] 0 3 []
  = Some (Ok tt [0x61; 0xf0; 0x9f; 0x98; 0x80])
  /\ unchecked.utf16to8 3 [0x61; 0xd83d; 0xde00] 0 3 []
     = Some [0x61; 0xf0; 0x9f; 0x98; 0x80].
Proof.
  split; [reflexivity|].
  apply (unchecked_utf16to8_agrees_on_success 3 [0x61; 0xd83d; 0xde00] 0 3 []).
  reflexivity.
Defined.

(** X14. Whenever the checked [utf32to8] succeeds, the unchecked one writes
    the same octets. *)
Theorem unchecked_utf32to8_agrees_on_success
  (fuel : nat) (mem : list Z) (start end_ : nat) (result out : list Z) :
  utf32to8 fuel mem start end_ result = Some (Ok tt out) ->
  unchecked.utf32to8 fuel mem start end_ result = Some out.
Proof.
  revert start result.
  induction fuel as [|fuel IH]; intros start result;
    cbn [utf32to8 unchecked.utf32to8].
  - destruct (start =? end_)%nat; [now intros [= <-]|discriminate].
  - destruct (start =? end_)%nat; [now intros [= <-]|].
    destruct (append _ result) as [[] r|] eqn:A; [|discriminate].
    rewrite (unchecked_append_agrees _ _ _ A). apply IH.
Qed.

Lemma unchecked_utf32to8_sample :
  utf32to8 2 [0x61; 0x1f600] 0 2 []
  = Some (Ok tt [0x61; 0xf0; 0x9f; 0x98; 0x80])
  /\ unchecked.utf32to8 2 [0x61; 0x1f600] 0 2 []
     = Some [0x61; 0xf0; 0x9f; 0x98; 0x80].
Proof.
  split; [reflexivity|].
  apply (unchecked_utf32to8_agrees_on_success 2 [0x61; 0x1f600] 0 2 []).
  reflexivity.
Defined.

(** ** Moving over a range *)

(** The octets of a sequence that decodes: a lead that is no continuation
    octet, then continuation octets only. *)
Lemma validate_next_ok_shape (mem : list Z) (it end_ it' : nat) (c0 cp : Z) :
  validate_next mem it end_ c0 = (UTF8_OK, it', cp) ->
  is_trail (deref mem it) = false
  /\ (it' - it <= 4)%nat
  /\ forall k : nat, (it < k < it')%nat -> is_trail (deref mem k) = true.
Proof.
  assert (Lead : sequence_length mem it <> 0 -> is_trail (deref mem it) = false).
  { rewrite sequence_length_class. cbv zeta.
    rewrite is_trail_mask8. fold (octet mem it).
    rewrite is_trail_octet by apply octet_range.
    pose proof (octet_range mem it).
    destruct (Z.leb_spec 0x80 (octet mem it));
      destruct (Z.ltb_spec (octet mem it) 0xc0); cbn [andb]; try reflexivity.
    destruct (Z.ltb_spec (octet mem it) 0x80); [lia|]. congruence. }
  by_length mem it; split_ifs; intros V; inversion V; subst; clear V;
    repeat match goal with
      | H : negb _ = false |- _ => apply negb_false_iff in H
      end;
    (split; [apply Lead; rewrite E; discriminate|]);
    (split; [lia|]);
    intros k Hk;
    repeat match goal with
      | H : is_trail (deref mem ?p) = true |- _ =>
          destruct (Nat.eq_dec k p) as [->|]; [exact H|]; clear H
      end; lia.
Qed.

Lemma eqb_false_lt_gt (a b : nat) : (b < a)%nat -> (a =? b)%nat = false.
Proof. intros. apply Nat.eqb_neq. lia. Qed.

Lemma prior_back_walk (mem : list Z) (start it : nat) :
  (start <= it)%nat ->
  is_trail (deref mem it) = false ->
  forall (n fuel : nat),
    (forall k : nat, (it < k <= it + n)%nat -> is_trail (deref mem k) = true) ->
    (n < fuel)%nat ->
    prior_back fuel mem (S (it + n)) start = Some (Ok tt it).
Proof.
  intros Hle Hlead. induction n as [|n IH]; intros fuel Htrail Hfuel.
  - destruct fuel as [|fuel]; [lia|]. cbn [prior_back Nat.pred].
    rewrite Nat.add_0_r, Hlead. reflexivity.
  - destruct fuel as [|fuel]; [lia|]. cbn [prior_back Nat.pred].
    rewrite (Htrail (it + S n)%nat) by lia.
    rewrite eqb_false_lt_gt by lia.
    replace (it + S n)%nat with (S (it + n)) by lia.
    apply IH; [|lia]. intros k Hk. apply Htrail. lia.
Qed.

(** X15. [prior] undoes [next]: from the position where a successful
    [next] has left off, [prior] returns the same code point and goes back to
    where that [next] started. *)
Theorem prior_inverts_next
  (fuel : nat) (mem : list Z) (start it end_ it' : nat) (cp : Z) :
  (start <= it)%nat ->
  (it < end_)%nat ->
  next mem it end_ = Ok cp it' ->
  (4 <= fuel)%nat ->
  prior fuel mem it' start = Some (Ok cp it).
Proof.
  intros Hs Hlt N Hfuel. unfold next in N.
  destruct (validate_next mem it end_ 0) as [[err i] c] eqn:V.
  destruct err; try discriminate. injection N as -> ->.
  pose proof (validate_next_ok _ _ _ _ _ _ Hlt V) as (Hit & _).
  pose proof (validate_next_ok_shape _ _ _ _ _ _ V) as (Hlead & Hlen & Htrail).
  unfold prior. rewrite eqb_false_lt_gt by lia.
  replace it' with (S (it + (it' - it - 1))) at 1 by lia.
  rewrite (prior_back_walk mem start it Hs Hlead (it' - it - 1) fuel)
    by (try lia; intros k Hk; apply Htrail; lia).
  unfold peek_next, next.
  rewrite (validate_next_ok_bound mem it end_ it' it' 0 0 cp Hlt V) by lia.
  reflexivity.
Qed.

Lemma prior_inverts_next_sample :
  next [0x41; 0xe2; 0x82; 0xac; 0x42] 1 5 = Ok 0x20ac 4%nat
  /\ prior 4 [0x41; 0xe2; 0x82; 0xac; 0x42] 4 0 = Some (Ok 0x20ac 1%nat).
Proof.
  split; [reflexivity|].
  apply (prior_inverts_next 4 [0x41; 0xe2; 0x82; 0xac; 0x42] 0 1 5 4 0x20ac).
  - lia.
  - lia.
  - reflexivity.
  - lia.
Defined.

(** X16. On a range that [is_valid] accepts, [distance] is the number of
    code points that [utf8to32] writes, and [advance] by that number goes
    from the start of the range to its end. *)
Theorem distance_counts_code_points
  (fuel : nat) (mem : list Z) (start end_ : nat) :
  (start <= end_)%nat ->
  is_valid fuel mem start end_ = Some true ->
  exists cps : list Z,
    utf8to32 fuel mem start end_ [] = Some (Ok tt cps)
    /\ distance fuel mem start end_ = Some (Ok (Z.of_nat (length cps)) tt)
    /\ advance mem start (Z.of_nat (length cps)) end_ = Ok tt end_.
Proof.
  intros Hle Hv.
  destruct (is_valid_decodes fuel mem start end_ Hle Hv) as (cps & D & Hn).
  exists cps.
  split; [now rewrite (decodes_utf8to32 _ _ _ _ D)|].
  split.
  - unfold distance. now rewrite (decodes_distance _ _ _ _ D).
  - unfold advance. rewrite Nat2Z.id. now apply decodes_advance.
Qed.

Lemma distance_sample :
  (0 <= 6)%nat
  /\ is_valid 6 [0x41; 0xc3; 0xa9; 0xe2; 0x82; 0xac] 0 6 = Some true
  /\ exists cps : list Z,
      utf8to32 6 [0x41; 0xc3; 0xa9; 0xe2; 0x82; 0xac] 0 6 [] = Some (Ok tt cps)
      /\ distance 6 [0x41; 0xc3; 0xa9; 0xe2; 0x82; 0xac] 0 6
         = Some (Ok (Z.of_nat (length cps)) tt)
      /\ advance [0x41; 0xc3; 0xa9; 0xe2; 0x82; 0xac] 0
           (Z.of_nat (length cps)) 6 = Ok tt 6%nat.
Proof.
  split; [lia|]. split; [reflexivity|].
  apply (distance_counts_code_points 6 [0x41; 0xc3; 0xa9; 0xe2; 0x82; 0xac] 0 6).
  - lia.
  - reflexivity.
Defined.

(** ** Byte order mark, octet classes, locality *)

Lemma octets_of_three (mem : list Z) (it : nat) :
  octets_of mem it (it + 3)
  = [octet mem it; octet mem (S it); octet mem (S (S it))].
Proof.
  unfold octets_of. replace (it + 3 - it)%nat with 3%nat by lia. reflexivity.
Qed.

(** X17. For a position inside the range, [starts_with_bom] holds exactly
    when three octets remain and they are EF BB BF, it then agrees with the
    deprecated [is_bom], and [next] decodes these octets to U+FEFF. *)
Theorem starts_with_bom_spec (mem : list Z) (it end_ : nat) :
  (it <= end_)%nat ->
  (starts_with_bom mem it end_ = true
   <-> (it + 3 <= end_)%nat /\ octets_of mem it (it + 3) = bom)
  /\ (starts_with_bom mem it end_ = true ->
      is_bom mem it = true /\ next mem it end_ = Ok 0xfeff (it + 3)%nat).
Proof.
  intros Hle.
  assert (Iff : starts_with_bom mem it end_ = true
                <-> (it + 3 <= end_)%nat /\ octets_of mem it (it + 3) = bom).
  { rewrite octets_of_three. unfold starts_with_bom, bom, octet. cbn [nth].
    rewrite !andb_true_iff, !negb_true_iff, !Nat.eqb_neq, !Z.eqb_eq.
    split.
    - intros [[[N0 B0] [N1 B1]] [N2 B2]]. split; [lia|]. congruence.
    - intros [Hroom E]. injection E as B0 B1 B2.
      repeat split; try assumption; lia. }
  split; [exact Iff|].
  intros B. apply Iff in B. destruct B as [Hroom E].
  rewrite octets_of_three in E. unfold bom in E. injection E as B0 B1 B2.
  split.
  - unfold is_bom, bom. cbn [nth]. fold (octet mem it) (octet mem (S it))
      (octet mem (S (S it))). rewrite B0, B1, B2. reflexivity.
  - unfold next.
    rewrite (validate_next_encoding mem it end_ 0 0xfeff).
    + reflexivity.
    + split; [lia|reflexivity].
    + intros k Hk. change (length (encoding 0xfeff)) with 3%nat in Hk.
      destruct k as [|[|[|k]]]; [exact B0|exact B1|exact B2|lia].
    + exact Hroom.
Qed.

Lemma starts_with_bom_sample :
  (0 <= 4)%nat
  /\ (starts_with_bom [0xef; 0xbb; 0xbf; 0x41] 0 4 = true
      <-> (0 + 3 <= 4)%nat
          /\ octets_of [0xef; 0xbb; 0xbf; 0x41] 0 (0 + 3) = bom)
  /\ (starts_with_bom [0xef; 0xbb; 0xbf; 0x41] 0 4 = true ->
      is_bom [0xef; 0xbb; 0xbf; 0x41] 0 = true
      /\ next [0xef; 0xbb; 0xbf; 0x41] 0 4 = Ok 0xfeff (0 + 3)%nat).
Proof.
  split; [lia|].
  apply (starts_with_bom_spec [0xef; 0xbb; 0xbf; 0x41] 0 4). lia.
Defined.

(** X18. What the checked decoder accepts is the minimal-length encoding
    of a valid code point: after a successful [next] the position lies in
    the range, and [append] of the decoded code point writes the very octets
    that were read, as many as the minimal length for its magnitude. *)
Theorem append_of_decode
  (mem : list Z) (it end_ it' : nat) (cp : Z) (out : list Z) :
  (it < end_)%nat ->
  next mem it end_ = Ok cp it' ->
  (it < it' <= end_)%nat
  /\ append cp out = Ok tt (out ++ octets_of mem it it')
  /\ Z.of_nat (it' - it) = minimal_length cp.
Proof.
  intros Hlt N. unfold next in N.
  destruct (validate_next mem it end_ 0) as [[err i] c] eqn:V.
  destruct err; try discriminate. injection N as -> ->.
  pose proof (validate_next_ok _ _ _ _ _ _ Hlt V) as (Hit & H0 & Hv & He).
  split; [exact Hit|]. split.
  - rewrite append_encoding by assumption. now rewrite He.
  - rewrite <- encoding_length, He, octets_of_length. reflexivity.
Qed.

Lemma append_of_decode_sample :
  (1 < 4)%nat
  /\ next [0x41; 0xe2; 0x82; 0xac] 1 4 = Ok 0x20ac 4%nat
  /\ (1 < 4 <= 4)%nat
  /\ append 0x20ac [] = Ok tt ([] ++ octets_of [0x41; 0xe2; 0x82; 0xac] 1 4)
  /\ Z.of_nat (4 - 1) = minimal_length 0x20ac.
Proof.
  split; [lia|]. split; [reflexivity|].
  apply (append_of_decode [0x41; 0xe2; 0x82; 0xac] 1 4 4 0x20ac []).
  - lia.
  - reflexivity.
Defined.

(** X19. The classes of octets, read off the shifts: an element is a
    continuation octet exactly when its octet lies in 80..BF;
    [sequence_length] is 1 on 00..7F, 2 on C0..DF, 3 on E0..EF, 4 on F0..F7,
    and 0 on the continuation octets and on F8..FF. *)
Theorem octet_classes (mem : list Z) (it : nat) :
  (is_trail (deref mem it) = true <-> 0x80 <= octet mem it < 0xc0)
  /\ sequence_length mem it
     = (if octet mem it <? 0x80 then 1
        else if octet mem it <? 0xc0 then 0
        else if octet mem it <? 0xe0 then 2
        else if octet mem it <? 0xf0 then 3
        else if octet mem it <? 0xf8 then 4
        else 0).
Proof.
  split; [|apply sequence_length_class].
  rewrite is_trail_mask8. fold (octet mem it).
  rewrite is_trail_octet by apply octet_range.
  rewrite andb_true_iff, Z.leb_le, Z.ltb_lt. reflexivity.
Qed.

(** X20. A successful decode depends on the octets of the sequence alone:
    the same octets at another position, in another storage, before any end
    bound that leaves room for them, decode to the same code point. *)
Theorem validate_next_depends_on_sequence_only
  (m1 m2 : list Z) (it1 e1 it2 e2 n : nat) (c1 c2 cp : Z) :
  (it1 < e1)%nat ->
  validate_next m1 it1 e1 c1 = (UTF8_OK, (it1 + n)%nat, cp) ->
  (forall k : nat, (k < n)%nat -> octet m2 (k + it2) = octet m1 (k + it1)) ->
  (it2 + n <= e2)%nat ->
  validate_next m2 it2 e2 c2 = (UTF8_OK, (it2 + n)%nat, cp).
Proof.
  intros Hlt V Hsame Hroom.
  pose proof (validate_next_ok _ _ _ _ _ _ Hlt V) as (Hit & H0 & Hv & He).
  assert (Hlen : length (encoding cp) = n).
  { rewrite He, octets_of_length. lia. }
  rewrite <- Hlen. apply validate_next_encoding; [now split| |lia].
  intros k Hk. rewrite Hsame by lia. rewrite He.
  symmetry. apply octets_of_nth. lia.
Qed.

Lemma validate_next_locality_sample :
  (0 < 2)%nat
  /\ validate_next [0xc3; 0xa9] 0 2 0 = (UTF8_OK, (0 + 2)%nat, 0xe9)
  /\ validate_next [0x41; 0xc3; 0xa9; 0xff] 1 4 7 = (UTF8_OK, (1 + 2)%nat, 0xe9).
Proof.
  split; [lia|]. split; [reflexivity|].
  apply (validate_next_depends_on_sequence_only [0xc3; 0xa9]
           [0x41; 0xc3; 0xa9; 0xff] 0 2 1 4 2 0 7 0xe9).
  - lia.
  - reflexivity.
  - intros k Hk. destruct k as [|[|k]]; [reflexivity|reflexivity|lia].
  - lia.
Defined.

(** ** The checked decoders on an invalid range *)

Lemma decoders_stop_at (mem : list Z) (end_ p : nat) (fuel : nat) :
  forall start : nat,
    (start <= end_)%nat ->
    find_invalid fuel mem start end_ = Some p ->
    p <> end_ ->
    exists (e : exception) (cps : list Z),
      next mem p end_ = Throw e p
      /\ decodes mem p start cps
      /\ (length cps <= fuel)%nat
      /\ forall result : list Z,
          utf8to32 fuel mem start end_ result
          = Some (Throw e (result ++ cps))
          /\ utf8to16 fuel mem start end_ result
             = Some (Throw e (result ++ flat_map utf16_units cps)).
Proof.
  induction fuel as [|fuel IH]; intros start Hle;
    cbn [find_invalid utf8to32 utf8to16].
  - destruct (Nat.eqb_spec start end_); [|discriminate].
    intros [= <-]. congruence.
  - destruct (Nat.eqb_spec start end_) as [->|Hne]; [intros [= <-]; congruence|].
    rewrite validate_next_2_eq.
    destruct (validate_next mem start end_ 0) as [[err it'] cp] eqn:V.
    cbn [fst snd].
    assert (Hlt : (start < end_)%nat) by lia.
    destruct err; cbn [utf_error_eqb negb].
    { intros F Hp.
      pose proof (validate_next_ok _ _ _ _ _ _ Hlt V) as (Hit & _).
      assert (Hle' : (it' <= end_)%nat) by lia.
      pose proof (find_invalid_bounds _ _ _ _ _ Hle' F) as Hb.
      destruct (IH it' Hle' F Hp) as (e & cps & N & D & Hn & R).
      exists e, (cp :: cps). split; [exact N|]. split.
      - apply (decodes_next mem p start it' cp cps); [lia| |exact D].
        apply (validate_next_ok_bound mem start end_ it' p 0 0 cp Hlt V). lia.
      - split; [cbn; lia|]. intros result. unfold next at 1 2. rewrite V.
        split.
        + rewrite (proj1 (R (result ++ [cp]))), <- app_assoc. reflexivity.
        + cbn [flat_map]. rewrite app_assoc. unfold utf16_units.
          destruct (0xffff <? cp); apply (proj2 (R _)). }
    all: pose proof (validate_next_failure_position _ _ _ _ _ _ _ V
                       ltac:(discriminate)) as ->.
    all: intros [= <-] _.
    all: eexists _, []; unfold next; rewrite V.
    all: split; [reflexivity|]; split; [constructor|].
    all: split; [cbn; lia|]; intros result; cbn [flat_map].
    all: rewrite app_nil_r; split; reflexivity.
Qed.

(** X21. On a range where [find_invalid] reports a position [p] before the
    end, the checked [utf8to32] and [utf8to16] throw what [next] throws at
    [p]; the output then holds the conversion of the valid octets before
    [p]. *)
Theorem checked_decoders_stop_at_first_invalid
  (fuel : nat) (mem : list Z) (start end_ p : nat) (result : list Z) :
  (start <= end_)%nat ->
  find_invalid fuel mem start end_ = Some p ->
  p <> end_ ->
  exists (e : exception) (w32 w16 : list Z),
    next mem p end_ = Throw e p
    /\ utf8to32 fuel mem start end_ result = Some (Throw e w32)
    /\ utf8to32 fuel mem start p result = Some (Ok tt w32)
    /\ utf8to16 fuel mem start end_ result = Some (Throw e w16)
    /\ utf8to16 fuel mem start p result = Some (Ok tt w16).
Proof.
  intros Hle F Hp.
  destruct (decoders_stop_at mem end_ p fuel start Hle F Hp)
    as (e & cps & N & D & Hn & R).
  exists e, (result ++ cps), (result ++ flat_map utf16_units cps).
  destruct (R result) as [R32 R16].
  rewrite (decodes_utf8to32 _ _ _ _ D), (decodes_utf8to16 _ _ _ _ D)
    by exact Hn.
  auto.
Qed.

Lemma checked_decoders_stop_sample :
  find_invalid 4 [0x41; 0xc3; 0xa9; 0xff] 0 4 = Some 3%nat
  /\ exists (e : exception) (w32 w16 : list Z),
      next [0x41; 0xc3; 0xa9; 0xff] 3 4 = Throw e 3%nat
      /\ utf8to32 4 [0x41; 0xc3; 0xa9; 0xff] 0 4 [] = Some (Throw e w32)
      /\ utf8to32 4 [0x41; 0xc3; 0xa9; 0xff] 0 3 [] = Some (Ok tt w32)
      /\ utf8to16 4 [0x41; 0xc3; 0xa9; 0xff] 0 4 [] = Some (Throw e w16)
      /\ utf8to16 4 [0x41; 0xc3; 0xa9; 0xff] 0 3 [] = Some (Ok tt w16).
Proof.
  split; [reflexivity|].
  apply (checked_decoders_stop_at_first_invalid 4 [0x41; 0xc3; 0xa9; 0xff]
           0 4 3 []).
  - lia.
  - reflexivity.
  - lia.
Defined.

(** ** UTF-8 to UTF-16 and back, through the decoded code points *)

(** C7. For a well-formed UTF-8 buffer [utf8to16] succeeds, and [utf16to8]
    on the units it wrote succeeds and writes the buffer again, octet for
    octet.  The units are those of the code points [cps] decoded from the
    buffer (the ones [utf8to32] writes for it, whose encodings are the
    buffer), and each of these above 0xFFFF went through a surrogate pair,
    from which [((lead - 0xD800) << 10) + (trail - 0xDC00) + 0x10000], and
    the expression of [utf16to8], give the code point back. *)
Theorem utf8to16_utf16to8_round_trip (fuel : nat) (mem : list Z) :
  Forall (fun o => 0 <= o < 256) mem ->
  is_valid fuel mem 0 (length mem) = Some true ->
  exists (cps w16 : list Z),
    utf8to32 fuel mem 0 (length mem) [] = Some (Ok tt cps)
    /\ flat_map encoding cps = mem
    /\ utf8to16 fuel mem 0 (length mem) [] = Some (Ok tt w16)
    /\ w16 = flat_map utf16_units cps
    /\ Forall (fun cp => 0xffff < cp ->
                         exists lead trail, surrogate_pair_of cp lead trail)
         cps
    /\ (length w16 <= length mem)%nat
    /\ forall fuel' : nat,
        (length w16 <= fuel')%nat ->
        utf16to8 fuel' w16 0 (length w16) [] = Some (Ok tt mem).
Proof.
  intros Hoct Hvalid.
  destruct (is_valid_decodes fuel mem 0 (length mem) ltac:(lia) Hvalid)
    as (cps & D & Hn).
  pose proof (decodes_facts _ _ _ _ D) as (_ & Hd & He & _).
  rewrite octets_of_octets, range_all in He by exact Hoct.
  pose proof (utf16_units_length cps Hd) as Hlen. rewrite He in Hlen.
  exists cps, (flat_map utf16_units cps).
  split; [now rewrite (decodes_utf8to32 _ _ _ _ D)|].
  split; [exact He|].
  split; [now rewrite (decodes_utf8to16 _ _ _ _ D)|].
  split; [reflexivity|].
  split.
  { apply Forall_impl with (P := decoded); [|exact Hd].
    intros cp. apply decoded_surrogate_pair. }
  split; [lia|].
  intros fuel' Hfuel.
  pose proof (utf16to8_encodes cps Hd fuel' [] [] ltac:(lia)) as R.
  cbn [app length Nat.add] in R. rewrite R, He. reflexivity.
Qed.

Lemma round_trip_sample :
  Forall (fun o => 0 <= o < 256)
    [0x61; 0xc3; 0xa9; 0xe2; 0x82; 0xac; 0xf0; 0x9f; 0x98; 0x80]
  /\ is_valid 10 [0x61; 0xc3; 0xa9; 0xe2; 0x82; 0xac; 0xf0; 0x9f; 0x98; 0x80]
       0 10 = Some true
  /\ exists (cps w16 : list Z),
      utf8to32 10 [0x61; 0xc3; 0xa9; 0xe2; 0x82; 0xac; 0xf0; 0x9f; 0x98; 0x80]
        0 10 [] = Some (Ok tt cps)
      /\ flat_map encoding cps
         = [0x61; 0xc3; 0xa9; 0xe2; 0x82; 0xac; 0xf0; 0x9f; 0x98; 0x80]
      /\ utf8to16 10 [0x61; 0xc3; 0xa9; 0xe2; 0x82; 0xac; 0xf0; 0x9f; 0x98; 0x80]
           0 10 [] = Some (Ok tt w16)
      /\ w16 = flat_map utf16_units cps
      /\ Forall (fun cp => 0xffff < cp ->
                           exists lead trail, surrogate_pair_of cp lead trail)
           cps
      /\ (length w16 <= 10)%nat
      /\ forall fuel' : nat,
          (length w16 <= fuel')%nat ->
          utf16to8 fuel' w16 0 (length w16) []
          = Some (Ok tt [0x61; 0xc3; 0xa9; 0xe2; 0x82; 0xac;
                         0xf0; 0x9f; 0x98; 0x80]).
Proof.
  assert (O : Forall (fun o => 0 <= o < 256)
                [0x61; 0xc3; 0xa9; 0xe2; 0x82; 0xac; 0xf0; 0x9f; 0x98; 0x80])
    by (repeat constructor; lia).
  split; [exact O|]. split; [reflexivity|].
  exact (utf8to16_utf16to8_round_trip 10
           [0x61; 0xc3; 0xa9; 0xe2; 0x82; 0xac; 0xf0; 0x9f; 0x98; 0x80]
           O eq_refl).
Defined.
